(** * SpringBox: the force-directed layout engine of [spring/force.py]

    A shallow embedding of the class [SpringBox] (Python 2) and the
    properties of its layout loop.

    Modelling conventions.
    - A Python [float] is a real number ([R]): arithmetic is exact, there is
      no rounding, no overflow, no infinity and no NaN.  Everything proved
      below is a statement about this exact arithmetic.
    - A Python [int] is a [Z].  The constructor arguments can be either
      ([tests.py] passes ints), hence the type [num]; Python 2's [/] on two
      ints is floor division.
    - A raised exception is a value [Raise e] of the type [result]; once a
      statement raises, the rest of the method is skipped.
    - The objects of [self.objects] are pairwise distinct Python objects, so
      the list of their attribute records, indexed by position, is the store
      the methods mutate.  A method that touches nothing of [self] but the
      objects is a function on this list, and takes the attributes of
      [self] it reads as arguments.
    - The weight oracle [kfn] is a pure function of the two objects'
      identities (their [name]), as the [kfn] helpers of [force.py] and
      [tests.py] are.  The attraction pass keeps a log of its calls.
    - [get_chart] and [print_objects] only read the result and are not
      modelled. *)

From Stdlib Require Import Reals Lra Lia ZArith.
From stdpp Require Import base list strings gmap.

(** ** Exceptions and the error monad *)

Inductive exn : Type :=
| ZeroDivisionError
| ValueError
| IndexError.

Inductive result (A : Type) : Type :=
| Ok (a : A)
| Raise (e : exn).

Arguments Ok {A} a.
Arguments Raise {A} e.

Definition bind {A B : Type} (m : result A) (k : A -> result B) : result B :=
  match m with
  | Ok a => k a
  | Raise e => Raise e
  end.

Notation "'do' x <- m ; k" := (bind m (fun x => k))
  (at level 10, x name, m at level 100, k at level 200).
Notation "'do' ' p <- m ; k" := (bind m (fun x => let 'p := x in k))
  (at level 10, p pattern, m at level 100, k at level 200).

(** A [for] loop whose body may raise: the state is threaded through the
    elements in order and the first exception ends the loop. *)
Fixpoint for_each {A S : Type} (body : A -> S -> result S) (l : list A)
    (s : S) : result S :=
  match l with
  | [] => Ok s
  | x :: l' => do s' <- body x s; for_each body l' s'
  end.

(** [xrange(a, b)]. *)
Definition xrange (a b : nat) : list nat := seq a (b - a).

(** [self.objects[i]]. *)
Definition get {A : Type} (i : nat) (l : list A) : result A :=
  match l !! i with
  | Some a => Ok a
  | None => Raise IndexError
  end.

(** ** Python numbers *)

Local Open Scope R_scope.

Inductive num : Type :=
| PyInt (z : Z)
| PyFloat (r : R).

Definition to_float (a : num) : R :=
  match a with
  | PyInt z => IZR z
  | PyFloat r => r
  end.

(** [a * b]: an int when both are ints. *)
Definition num_mul (a b : num) : num :=
  match a, b with
  | PyInt x, PyInt y => PyInt (x * y)
  | _, _ => PyFloat (to_float a * to_float b)
  end.

(** [a / n] for an int [n]: floor division when [a] is an int too. *)
Definition num_div_int (a : num) (n : Z) : result num :=
  if Z.eqb n 0 then Raise ZeroDivisionError
  else match a with
       | PyInt x => Ok (PyInt (x / n))
       | PyFloat r => Ok (PyFloat (r / IZR n))
       end.

(** [a ** 0.5]: Python 2 raises [ValueError] on a negative base. *)
Definition pow_half (a : num) : result R :=
  if Rlt_dec (to_float a) 0 then Raise ValueError
  else Ok (sqrt (to_float a)).

(** [x / y] on floats. *)
Definition fdiv (x y : R) : result R :=
  if Req_dec_T y 0 then Raise ZeroDivisionError else Ok (x / y).

Definition Kc : R := 8.9875 * 10 ^ 9.

(** ** Nodes and the engine *)

(** The attributes the engine reads and writes on an object.  [xpos] and
    [ypos] exist only once [scale_to_map] has run. *)
Record node : Type := Node {
  name : string;
  pos : R * R;
  force : R * R;
  acc : R * R;
  vel : R * R;
  mass : R;
  charge : R;
  xpos : option R;
  ypos : option R
}.

(** An object that has only a name, as [tests.py]'s [Holder]. *)
Definition Holder (s : string) : node :=
  Node s (0, 0) (0, 0) (0, 0) (0, 0) 0 0 None None.

Definition set_force (f : R * R) (o : node) : node :=
  Node (name o) (pos o) f (acc o) (vel o) (mass o) (charge o) (xpos o) (ypos o).

Record SpringBox : Type := MkSpringBox {
  objects : list node;
  width : num;
  height : num;
  sb_charge : num;
  sb_mass : num;
  time_step : num;
  kfn : string -> string -> option R
}.

Definition set_objects (l : list node) (sb : SpringBox) : SpringBox :=
  MkSpringBox l (width sb) (height sb) (sb_charge sb) (sb_mass sb)
    (time_step sb) (kfn sb).

(** *** [init_positions] *)

(** The loop of [init_positions]: [curr_x] and [curr_y] are the running
    offsets, [r] the radius and [w] the canvas width. *)
Fixpoint place (r w m q : R) (curr_x curr_y : R) (objs : list node)
    : list node :=
  match objs with
  | [] => []
  | o :: rest =>
      let o' := Node (name o) (curr_x + r, curr_y) (0, 0) (0, 0) (0, 0)
                  m q (xpos o) (ypos o) in
      let curr_x' := curr_x + r in
      if Rgt_dec (curr_x' + r) w
      then o' :: place r w m q 0 (curr_y + 2 * r) rest
      else o' :: place r w m q curr_x' curr_y rest
  end.

Definition init_positions (sb : SpringBox) : result SpringBox :=
  let A := num_mul (width sb) (height sb) in
  let N := Z.of_nat (length (objects sb)) in
  do S <- num_div_int A N;
  do r <- pow_half S;
  Ok (set_objects
        (place r (to_float (width sb)) (to_float (sb_mass sb) + 0)
           (to_float (sb_charge sb) + 0) 0 r (objects sb))
        sb).

(** [SpringBox.__init__]. *)
Definition new_SpringBox (objs : list node) (w h q m ts : num)
    (k : string -> string -> option R) : result SpringBox :=
  init_positions (MkSpringBox objs w h q m ts k).

(** *** [clear_forces] *)

Definition clear_forces (l : list node) : list node :=
  map (set_force (0, 0)) l.

(** *** [compute_repulsive_force] *)

(** One axis of one pair: [p] and [p'] are the coordinates of [v] and [u],
    [f] and [f'] the force components before; the result is the pair of
    force components after. *)
Definition repulse_axis (p p' q q' f f' : R) : result (R * R) :=
  let d := p - p' in
  if Req_dec_T d 0 then Ok (f, f')
  else
    do sign <- fdiv d (Rabs d);
    do a <- fdiv (sign * Kc * q * q') (d ^ 2);
    do b <- fdiv ((-1) * sign * Kc * q * q') (d ^ 2);
    Ok (f + a, f' + b).

Definition repulse_pair (i j : nat) (l : list node) : result (list node) :=
  do v <- get i l;
  do u <- get j l;
  do '(fx, fx') <- repulse_axis (fst (pos v)) (fst (pos u)) (charge v)
                     (charge u) (fst (force v)) (fst (force u));
  do '(fy, fy') <- repulse_axis (snd (pos v)) (snd (pos u)) (charge v)
                     (charge u) (snd (force v)) (snd (force u));
  Ok (<[j := set_force (fx', fy') u]> (<[i := set_force (fx, fy) v]> l)).

Definition compute_repulsive_force (l : list node) : result (list node) :=
  for_each
    (fun i l => for_each (fun j l => repulse_pair i j l)
                  (xrange (i + 1) (length l)) l)
    (xrange 0 (length l)) l.

(** *** [compute_attractive_force] *)

Definition attract_axis (p p' k f f' : R) : R * R :=
  let d := p - p' in
  if Req_dec_T d 0 then (f, f')
  else (f + (-1) * d * k, f' + d * k).

(** The state of the attraction pass carries the log of the oracle's
    calls, oldest first: each entry is the pair of arguments of one call. *)
Definition attract_pair (k : string -> string -> option R) (i j : nat)
    (s : list node * list (string * string))
    : result (list node * list (string * string)) :=
  let '(l, log) := s in
  do v <- get i l;
  do u <- get j l;
  let log' := log ++ [(name v, name u)] in
  match k (name v) (name u) with
  | None => Ok (l, log')
  | Some c =>
      let '(fx, fx') := attract_axis (fst (pos v)) (fst (pos u)) c
                          (fst (force v)) (fst (force u)) in
      let '(fy, fy') := attract_axis (snd (pos v)) (snd (pos u)) c
                          (snd (force v)) (snd (force u)) in
      Ok (<[j := set_force (fx', fy') u]> (<[i := set_force (fx, fy) v]> l),
          log')
  end.

Definition attract_loop (k : string -> string -> option R)
    (s : list node * list (string * string))
    : result (list node * list (string * string)) :=
  for_each
    (fun i s => for_each (fun j s => attract_pair k i j s)
                  (xrange (i + 1) (length (fst s))) s)
    (xrange 0 (length (fst s))) s.

Definition compute_attractive_force (k : string -> string -> option R)
    (l : list node) : result (list node) :=
  do s <- attract_loop k (l, []); Ok (fst s).

(** *** [move] *)

Definition move_node (ts : R) (o : node) : result node :=
  do ax <- fdiv (fst (force o)) (mass o);
  do ay <- fdiv (snd (force o)) (mass o);
  let p := (fst (vel o) * ts + ax / 2 * ts ^ 2,
            snd (vel o) * ts + ay / 2 * ts ^ 2) in
  let v := (fst (vel o) + ax * ts, snd (vel o) + ay * ts) in
  Ok (Node (name o) p (force o) (ax, ay) v (mass o) (charge o)
        (xpos o) (ypos o)).

Fixpoint move (ts : R) (l : list node) : result (list node) :=
  match l with
  | [] => Ok []
  | o :: rest =>
      do o' <- move_node ts o;
      do rest' <- move ts rest;
      Ok (o' :: rest')
  end.

(** *** [scale_to_map] *)

(** The bounding-box loop; the state is [(minx, maxx, miny, maxy)]. *)
Definition bbox_step (b : R * R * R * R) (o : node) : R * R * R * R :=
  let '(minx, maxx, miny, maxy) := b in
  let minx := if Rlt_dec (fst (pos o)) minx then fst (pos o) else minx in
  let maxx := if Rgt_dec (fst (pos o)) maxx then fst (pos o) else maxx in
  let miny := if Rlt_dec (snd (pos o)) miny then snd (pos o) else miny in
  let maxy := if Rgt_dec (snd (pos o)) maxy then snd (pos o) else maxy in
  (minx, maxx, miny, maxy).

Definition bbox (o0 : node) (l : list node) : R * R * R * R :=
  fold_left bbox_step l
    (fst (pos o0), fst (pos o0), snd (pos o0), snd (pos o0)).

Definition rescale (minx miny scalex scaley : R) (o : node) : node :=
  let x := (fst (pos o) - minx) * scalex in
  let y := (snd (pos o) - miny) * scaley in
  Node (name o) (x, y) (force o) (acc o) (vel o) (mass o) (charge o)
    (Some x) (Some y).

Definition scale_to_map (w h : num) (l : list node) : result (list node) :=
  do o0 <- get 0 l;
  let '(minx, maxx, miny, maxy) := bbox o0 l in
  let lenx := maxx - minx + 1 in
  let leny := maxy - miny + 1 in
  do scalex <- fdiv (to_float w) lenx;
  do scaley <- fdiv (to_float h) leny;
  Ok (map (rescale minx miny scalex scaley) l).

(** *** [move_to_equillibrium] *)

(** One iteration of the loop. *)
Definition step (k : string -> string -> option R) (ts : R)
    (l : list node) : result (list node) :=
  let l := clear_forces l in
  do l <- compute_repulsive_force l;
  do l <- compute_attractive_force k l;
  move ts l.

Fixpoint iterate (k : string -> string -> option R) (ts : R) (n : nat)
    (l : list node) : result (list node) :=
  match n with
  | O => Ok l
  | S n' => do l' <- step k ts l; iterate k ts n' l'
  end.

Definition move_to_equillibrium (sb : SpringBox) (n : nat)
    : result SpringBox :=
  do l <- iterate (kfn sb) (to_float (time_step sb)) n (objects sb);
  do l' <- scale_to_map (width sb) (height sb) l;
  Ok (set_objects l' sb).

(** The whole layout: construction, then [move_to_equillibrium(n)]. *)
Definition layout (objs : list node) (w h q m ts : num)
    (k : string -> string -> option R) (n : nat) : result SpringBox :=
  do sb <- new_SpringBox objs w h q m ts k;
  move_to_equillibrium sb n.

(** *** The static methods [kfn] and [update_ndict] *)

(** The oracle the callers build: a dict of dicts from names to weights.
    [static_kfn ndict] is [lambda u, v: SpringBox.kfn(ndict, u, v)], on
    the names of [u] and [v]. *)
Definition static_kfn (ndict : gmap string (gmap string R)) (u v : string)
    : option R :=
  match ndict !! u with
  | None => None
  | Some row => row !! v
  end.

(** [update_ndict(ndict, u, v, w)] records the weight in both directions. *)
Definition update_ndict (ndict : gmap string (gmap string R))
    (u v : string) (w : R) : gmap string (gmap string R) :=
  let ndict := <[v := <[u := w]> (default ∅ (ndict !! v))]> ndict in
  <[u := <[v := w]> (default ∅ (ndict !! u))]> ndict.

(** ** Specification-level definitions *)

(** The sign of a coordinate difference. *)
Definition sgn (d : R) : R :=
  if Rlt_dec 0 d then 1 else if Rlt_dec d 0 then -1 else 0.

(** The repulsion one node receives on one axis from another node at
    coordinate difference [d]: nothing when [d] is zero, and
    [sign(d) * Kc * q * q' / d^2] otherwise. *)
Definition coulomb (d q q' : R) : R :=
  if Req_dec_T d 0 then 0 else sgn d * Kc * q * q' / d ^ 2.

(** The spring force one node receives on one axis from a node at
    coordinate difference [d] under spring constant [k]. *)
Definition hooke (d k : R) : R := - d * k.

Definition Rsum (l : list R) : R := fold_right Rplus 0 l.

(** The index pairs of the two nested loops, in the order they are
    visited. *)
Definition pairs (n : nat) : list (nat * nat) :=
  flat_map (fun i => map (pair i) (xrange (i + 1) n)) (xrange 0 n).

Definition vadd (a b : R * R) : R * R := (fst a + fst b, snd a + snd b).

Definition vsum (l : list (R * R)) : R * R := fold_right vadd (0, 0) l.

Definition add_force (d : R * R) (o : node) : node :=
  set_force (vadd (force o) d) o.

(** The repulsion node [o] receives from node [u], as a vector. *)
Definition repulsion (o u : node) : R * R :=
  (coulomb (fst (pos o) - fst (pos u)) (charge o) (charge u),
   coulomb (snd (pos o) - snd (pos u)) (charge o) (charge u)).

(** What processing the pair [p] adds to the force of the node at index
    [k], read off the list [l]. *)
Definition pair_delta (l : list node) (p : nat * nat) (k : nat) : R * R :=
  match l !! fst p, l !! snd p with
  | Some v, Some u =>
      if Nat.eqb k (fst p) then repulsion v u
      else if Nat.eqb k (snd p) then repulsion u v
      else (0, 0)
  | _, _ => (0, 0)
  end.

(** The repulsion the node at index [k] of [l] receives from the node at
    index [j]. *)
Definition repulsion_at (l : list node) (k j : nat) : R * R :=
  match l !! k, l !! j with
  | Some o, Some u => repulsion o u
  | _, _ => (0, 0)
  end.

(** The spring force node [o] receives from node [u] under spring
    constant [c], as a vector. *)
Definition spring (o u : node) (c : R) : R * R :=
  (hooke (fst (pos o) - fst (pos u)) c, hooke (snd (pos o) - snd (pos u)) c).

(** The arguments of the oracle call the pair [p] makes on the list [l]. *)
Definition name_at (l : list node) (i : nat) : string :=
  match l !! i with
  | Some o => name o
  | None => EmptyString
  end.

Definition arg_names (l : list node) (p : nat * nat) : string * string :=
  (name_at l (fst p), name_at l (snd p)).

(** What [move] makes of a node whose mass is not zero. *)
Definition moved (ts : R) (o : node) : node :=
  let ax := fst (force o) / mass o in
  let ay := snd (force o) / mass o in
  Node (name o)
    (fst (vel o) * ts + ax / 2 * ts ^ 2, snd (vel o) * ts + ay / 2 * ts ^ 2)
    (force o) (ax, ay)
    (fst (vel o) + ax * ts, snd (vel o) + ay * ts)
    (mass o) (charge o) (xpos o) (ypos o).

(** The running minimum and maximum of the bounding-box loop, one
    coordinate at a time. *)
Definition lo (xs : list R) (m : R) : R :=
  fold_left (fun m x => if Rlt_dec x m then x else m) xs m.

Definition hi (xs : list R) (m : R) : R :=
  fold_left (fun m x => if Rgt_dec x m then x else m) xs m.

(** [m] is the least element of [xs]. *)
Definition is_min (m : R) (xs : list R) : Prop :=
  In m xs /\ forall x, In x xs -> m <= x.

(** [m] is the greatest element of [xs]. *)
Definition is_max (m : R) (xs : list R) : Prop :=
  In m xs /\ forall x, In x xs -> x <= m.

(** A node lies in the canvas [[0, w) x [0, h)] and exposes its position
    as [xpos], [ypos]. *)
Definition on_canvas (w h : R) (o : node) : Prop :=
  0 <= fst (pos o) < w /\ 0 <= snd (pos o) < h /\
  xpos o = Some (fst (pos o)) /\ ypos o = Some (snd (pos o)).

(** Two oracles agree on the list of names [names] when they return the
    same on every [(earlier, later)] pair of it. *)
Definition agree (names : list string) (k1 k2 : string -> string -> option R)
    : Prop :=
  forall i j a b, (i < j)%nat -> names !! i = Some a -> names !! j = Some b ->
    k1 a b = k2 a b.

Definition rmap {A B : Type} (f : A -> B) (r : result A) : result B :=
  do a <- r; Ok (f a).

(** What a caller reads back from a run: the nodes, or the exception. *)
Definition nodes_of (r : result SpringBox) : result (list node) :=
  rmap objects r.

(** A node without the attributes [xpos] and [ypos]. *)
Definition forget_xy (o : node) : node :=
  Node (name o) (pos o) (force o) (acc o) (vel o) (mass o) (charge o)
    None None.

(** The condition under which the radius of [init_positions] is positive:
    a positive area for a float, and an area of at least [n] for an int,
    which [/] divides by [n] rounding down. *)
Definition positive_radius (area : num) (n : nat) : Prop :=
  match area with
  | PyInt a => (Z.of_nat n <= a)%Z
  | PyFloat a => 0 < a
  end.

(** An oracle with no edge. *)
Definition no_edges : string -> string -> option R := fun _ _ => None.

(** ** Inputs of the examples *)

(** Two nodes as the constructor places them on an 8 x 1 canvas. *)
Definition two_nodes : list node :=
  [Node "A" (2, 2) (0, 0) (0, 0) (0, 0) 1 1 None None;
   Node "B" (4, 2) (0, 0) (0, 0) (0, 0) 1 1 None None].

(** The oracle with the edge A - B of weight 1, as [update_ndict] builds
    it; and the same with the two nodes given in the other order. *)
Definition edge_AB : string -> string -> option R :=
  static_kfn (update_ndict ∅ "A" "B" 1).

Definition edge_BA : string -> string -> option R :=
  static_kfn (update_ndict ∅ "B" "A" 1).



(** * Properties *)

(** ** The error monad and the loops *)

Lemma for_each_app {A S : Type} (body : A -> S -> result S) (l1 l2 : list A)
    (s : S) :
  for_each body (l1 ++ l2) s =
  do s' <- for_each body l1 s; for_each body l2 s'.
Proof.
  revert s; induction l1 as [|x l1 IH]; intros s; simpl; [reflexivity|].
  destruct (body x s) as [s'|e]; simpl; [apply IH | reflexivity].
Qed.

Lemma for_each_map {A B S : Type} (f : A -> B) (body : B -> S -> result S)
    (l : list A) (s : S) :
  for_each body (map f l) s = for_each (fun a => body (f a)) l s.
Proof.
  revert s; induction l as [|x l IH]; intros s; simpl; [reflexivity|].
  destruct (body (f x) s); simpl; [apply IH | reflexivity].
Qed.

(** Two bodies that agree under an invariant give the same loop. *)
Lemma for_each_ext {A S : Type} (Inv : S -> Prop)
    (b1 b2 : A -> S -> result S) (l : list A) :
  (forall x s, In x l -> Inv s -> b1 x s = b2 x s) ->
  (forall x s s', In x l -> Inv s -> b1 x s = Ok s' -> Inv s') ->
  forall s, Inv s -> for_each b1 l s = for_each b2 l s.
Proof.
  induction l as [|x l IH]; intros He Hi s Hs; simpl; [reflexivity|].
  rewrite <- (He x s) by (simpl; auto).
  destruct (b1 x s) as [s1|e] eqn:E1; simpl; [|reflexivity].
  apply IH.
  - intros y t Hy Ht; apply He; simpl; auto.
  - intros y t t' Hy Ht; apply Hi; simpl; auto.
  - apply (Hi x s s1); simpl; auto.
Qed.

(** An invariant of the body is an invariant of the loop. *)
Lemma for_each_inv {A S : Type} (Inv : S -> Prop)
    (body : A -> S -> result S) (l : list A) :
  (forall x s s', In x l -> Inv s -> body x s = Ok s' -> Inv s') ->
  forall s s', Inv s -> for_each body l s = Ok s' -> Inv s'.
Proof.
  induction l as [|x l IH]; intros Hi s s' Hs E; simpl in E.
  - injection E as <-; assumption.
  - destruct (body x s) as [s1|e] eqn:E1; simpl in E; [|discriminate].
    apply (IH (fun y t t' Hy => Hi y t t' (or_intror Hy)) s1 s');
      [|assumption].
    apply (Hi x s s1); simpl; auto.
Qed.

(** The two nested loops over [i] and [j > i] are one loop over [pairs],
    provided the body keeps the length [len] of the state. *)
Lemma for_each_nested {S : Type} (len : S -> nat)
    (body : nat -> nat -> S -> result S) :
  (forall i j s s', body i j s = Ok s' -> len s' = len s) ->
  forall (rows : list nat) (s : S),
    for_each (fun i s => for_each (fun j s => body i j s)
                           (xrange (i + 1) (len s)) s) rows s =
    for_each (fun p s => body (fst p) (snd p) s)
      (flat_map (fun i => map (pair i) (xrange (i + 1) (len s))) rows) s.
Proof.
  intros Hlen rows; induction rows as [|i rows IH]; intros s; simpl;
    [reflexivity|].
  rewrite for_each_app, for_each_map; simpl.
  destruct (for_each (fun j s0 => body i j s0) (xrange (i + 1) (len s)) s)
    as [s1|e] eqn:E1; simpl; [|reflexivity].
  assert (len s1 = len s) as L.
  { revert E1. apply (for_each_inv (fun t => len t = len s)); [|reflexivity].
    intros j t t' _ Ht Eb. rewrite (Hlen _ _ _ _ Eb). exact Ht. }
  rewrite IH, L. reflexivity.
Qed.

Lemma fdiv_ok (x y : R) : y <> 0 -> fdiv x y = Ok (x / y).
Proof.
  intros H; unfold fdiv; destruct (Req_dec_T y 0); [contradiction|reflexivity].
Qed.

Lemma fdiv_zero (x : R) : fdiv x 0 = Raise ZeroDivisionError.
Proof.
  unfold fdiv; destruct (Req_dec_T 0 0) as [_|H]; [reflexivity|].
  exfalso; apply H; reflexivity.
Qed.

Lemma get_ok {A : Type} (i : nat) (l : list A) (a : A) :
  l !! i = Some a -> get i l = Ok a.
Proof. intros H; unfold get; rewrite H; reflexivity. Qed.

(** ** Repulsion: one axis, one pair *)

Lemma sign_sgn (d : R) : d <> 0 -> d / Rabs d = sgn d.
Proof.
  intros H; unfold sgn, Rabs.
  destruct (Rcase_abs d), (Rlt_dec 0 d), (Rlt_dec d 0); try lra;
    field; lra.
Qed.

Lemma coulomb_odd (d q q' : R) : coulomb (- d) q' q = - coulomb d q q'.
Proof.
  unfold coulomb, sgn.
  destruct (Req_dec_T (- d) 0), (Req_dec_T d 0); try lra.
  destruct (Rlt_dec 0 (- d)), (Rlt_dec (- d) 0), (Rlt_dec 0 d),
    (Rlt_dec d 0); try lra; field; lra.
Qed.

Lemma repulse_axis_spec (p p' q q' f f' : R) :
  repulse_axis p p' q q' f f' =
  Ok (f + coulomb (p - p') q q', f' + - coulomb (p - p') q q').
Proof.
  unfold repulse_axis, coulomb.
  destruct (Req_dec_T (p - p') 0) as [E|NE].
  - do 2 f_equal; lra.
  - assert (Rabs (p - p') <> 0) by (apply Rabs_no_R0; assumption).
    assert ((p - p') ^ 2 <> 0) by (apply pow_nonzero; assumption).
    rewrite !fdiv_ok by assumption; simpl.
    rewrite !fdiv_ok by assumption; simpl.
    rewrite sign_sgn by assumption.
    do 2 f_equal; field; assumption.
Qed.

Lemma vadd_0_r (a : R * R) : vadd a (0, 0) = a.
Proof. destruct a; unfold vadd; simpl; f_equal; lra. Qed.

Lemma vadd_0_l (a : R * R) : vadd (0, 0) a = a.
Proof. destruct a; unfold vadd; simpl; f_equal; lra. Qed.

Lemma vadd_assoc (a b c : R * R) : vadd a (vadd b c) = vadd (vadd a b) c.
Proof. unfold vadd; simpl; f_equal; lra. Qed.

Lemma vsum_app (l1 l2 : list (R * R)) :
  vsum (l1 ++ l2) = vadd (vsum l1) (vsum l2).
Proof.
  induction l1 as [|a l1 IH]; simpl.
  - symmetry; apply vadd_0_l.
  - rewrite IH; apply vadd_assoc.
Qed.

Lemma fst_vsum (l : list (R * R)) : fst (vsum l) = Rsum (map fst l).
Proof. induction l as [|a l IH]; simpl; [|rewrite IH]; reflexivity. Qed.

Lemma snd_vsum (l : list (R * R)) : snd (vsum l) = Rsum (map snd l).
Proof. induction l as [|a l IH]; simpl; [|rewrite IH]; reflexivity. Qed.

Lemma add_force_0 (o : node) : add_force (0, 0) o = o.
Proof.
  unfold add_force; rewrite vadd_0_r; destruct o as [? ? [? ?] ? ? ? ? ? ?];
    reflexivity.
Qed.

Lemma add_force_add (a b : R * R) (o : node) :
  add_force b (add_force a o) = add_force (vadd a b) o.
Proof. unfold add_force, set_force; simpl; rewrite vadd_assoc; reflexivity. Qed.

Lemma repulsion_self (o : node) : repulsion o o = (0, 0).
Proof.
  unfold repulsion, coulomb.
  destruct (Req_dec_T (fst (pos o) - fst (pos o)) 0),
    (Req_dec_T (snd (pos o) - snd (pos o)) 0); try reflexivity; lra.
Qed.

Lemma repulsion_add_force (a b : R * R) (o u : node) :
  repulsion (add_force a o) (add_force b u) = repulsion o u.
Proof. reflexivity. Qed.

(** One pair of the repulsion pass: [v] receives the repulsion from [u]
    and [u] the one from [v]; nothing raises. *)
Lemma repulse_pair_spec (i j : nat) (l : list node) (v u : node) :
  i <> j -> l !! i = Some v -> l !! j = Some u ->
  repulse_pair i j l =
  Ok (<[j := add_force (repulsion u v) u]>
        (<[i := add_force (repulsion v u) v]> l)).
Proof.
  intros Hij Hv Hu; unfold repulse_pair.
  rewrite (get_ok _ _ _ Hv), (get_ok _ _ _ Hu); simpl.
  rewrite !repulse_axis_spec; simpl.
  unfold add_force, repulsion, vadd; simpl.
  replace (fst (pos u) - fst (pos v)) with (- (fst (pos v) - fst (pos u)))
    by lra.
  replace (snd (pos u) - snd (pos v)) with (- (snd (pos v) - snd (pos u)))
    by lra.
  rewrite !coulomb_odd; reflexivity.
Qed.

Lemma repulse_pair_length (i j : nat) (l l' : list node) :
  repulse_pair i j l = Ok l' -> length l' = length l.
Proof.
  unfold repulse_pair, get.
  destruct (l !! i) as [v|]; simpl; [|discriminate].
  destruct (l !! j) as [u|]; simpl; [|discriminate].
  rewrite !repulse_axis_spec; simpl.
  intros E; injection E as <-; rewrite !length_insert; reflexivity.
Qed.

(** ** Repulsion: the whole pass *)

(** Processing a list of pairs adds to each node the sum of what each pair
    adds to it; the contributions are read off the list [l0] the pass
    started from, because only the forces change. *)
Lemma repulse_pairs_acc (l0 : list node) (ps : list (nat * nat)) :
  (forall p, In p ps ->
     fst p <> snd p /\ (fst p < length l0)%nat /\ (snd p < length l0)%nat) ->
  forall (F : nat -> R * R) (l : list node),
    length l = length l0 ->
    (forall k o, l0 !! k = Some o -> l !! k = Some (add_force (F k) o)) ->
    exists l',
      for_each (fun p l => repulse_pair (fst p) (snd p) l) ps l = Ok l' /\
      length l' = length l0 /\
      forall k o, l0 !! k = Some o ->
        l' !! k =
        Some (add_force
                (vadd (F k) (vsum (map (fun p => pair_delta l0 p k) ps))) o).
Proof.
  induction ps as [|[i j] ps IH]; intros Hps F l Hlen Hl; simpl.
  - exists l; split; [reflexivity|]; split; [assumption|].
    intros k o Hk; rewrite vadd_0_r; apply Hl; assumption.
  - destruct (Hps (i, j)) as (Hij & Hi & Hj); [left; reflexivity|].
    simpl in Hij, Hi, Hj.
    destruct (lookup_lt_is_Some_2 l0 i Hi) as [v0 Hv0].
    destruct (lookup_lt_is_Some_2 l0 j Hj) as [u0 Hu0].
    rewrite (repulse_pair_spec i j l _ _ Hij (Hl _ _ Hv0) (Hl _ _ Hu0)).
    simpl; rewrite !repulsion_add_force, !add_force_add.
    destruct (IH (fun p Hp => Hps p (or_intror Hp))
                (fun k => vadd (F k) (pair_delta l0 (i, j) k))
                (<[j := add_force (vadd (F j) (repulsion u0 v0)) u0]>
                   (<[i := add_force (vadd (F i) (repulsion v0 u0)) v0]> l)))
      as (l' & E & L & H).
    + rewrite !length_insert; assumption.
    + intros k o Hk; unfold pair_delta; simpl; rewrite Hv0, Hu0.
      destruct (Nat.eqb_spec k i) as [->|Hki].
      * rewrite list_lookup_insert_ne by (intros ->; apply Hij; reflexivity).
        rewrite list_lookup_insert_eq by (rewrite Hlen; assumption).
        congruence.
      * destruct (Nat.eqb_spec k j) as [->|Hkj].
        -- rewrite list_lookup_insert_eq
             by (rewrite length_insert, Hlen; assumption).
           congruence.
        -- rewrite !list_lookup_insert_ne by congruence.
           rewrite vadd_0_r; apply Hl; assumption.
    + exists l'; split; [assumption|]; split; [assumption|].
      intros k o Hk; rewrite (H k o Hk), vadd_assoc; reflexivity.
Qed.

Lemma vsum_ext {A : Type} (f g : A -> R * R) (l : list A) :
  (forall x, In x l -> f x = g x) -> vsum (map f l) = vsum (map g l).
Proof.
  induction l as [|a l IH]; intros H; simpl; [reflexivity|].
  rewrite (H a), IH; [reflexivity | | left; reflexivity].
  intros x Hx; apply H; right; assumption.
Qed.

Lemma vsum_zero {A : Type} (l : list A) :
  vsum (map (fun _ => (0, 0)) l) = (0, 0).
Proof. induction l as [|a l IH]; simpl; [|rewrite IH, vadd_0_l]; reflexivity. Qed.

Lemma vsum_flat_map {A B : Type} (f : B -> R * R) (r : A -> list B)
    (l : list A) :
  vsum (map f (flat_map r l)) = vsum (map (fun i => vsum (map f (r i))) l).
Proof.
  induction l as [|a l IH]; simpl; [reflexivity|].
  rewrite map_app, vsum_app, IH; reflexivity.
Qed.

(** A sum with a single non-zero term. *)
Lemma vsum_indicator (c : R * R) (k : nat) (m a : nat) :
  vsum (map (fun j => if Nat.eqb j k then c else (0, 0)) (seq a m)) =
  if (a <=? k)%nat && (k <? a + m)%nat then c else (0, 0).
Proof.
  revert a; induction m as [|m IH]; intros a; simpl.
  - destruct (Nat.leb_spec a k), (Nat.ltb_spec k (a + 0)); simpl;
      try reflexivity; lia.
  - rewrite IH.
    destruct (Nat.eqb_spec a k), (Nat.leb_spec (S a) k),
      (Nat.ltb_spec k (S a + m)), (Nat.leb_spec a k),
      (Nat.ltb_spec k (a + S m)); simpl;
      try lia; try apply vadd_0_r; try apply vadd_0_l.
Qed.

Lemma pair_delta_row (l0 : list node) (k i : nat) (o : node) :
  l0 !! k = Some o ->
  vsum (map (fun p => pair_delta l0 p k)
          (map (pair i) (xrange (i + 1) (length l0)))) =
  if Nat.eqb i k
  then vsum (map (repulsion_at l0 k) (xrange (k + 1) (length l0)))
  else if (i <? k)%nat then repulsion_at l0 k i else (0, 0).
Proof.
  intros Hk. pose proof (lookup_lt_Some _ _ _ Hk) as Lk.
  rewrite map_map. destruct (Nat.eqb_spec i k) as [->|Hik].
  - apply vsum_ext; intros j Hj. apply in_seq in Hj.
    destruct (lookup_lt_is_Some_2 l0 j) as [u Hu]; [lia|].
    unfold pair_delta, repulsion_at; simpl.
    rewrite Hk, Hu, Nat.eqb_refl; reflexivity.
  - rewrite (vsum_ext _ (fun j => if Nat.eqb j k then repulsion_at l0 k i
                                  else (0, 0))).
    + unfold xrange; rewrite vsum_indicator.
      destruct (Nat.leb_spec (i + 1) k),
        (Nat.ltb_spec k (i + 1 + (length l0 - (i + 1)))),
        (Nat.ltb_spec i k); simpl; try reflexivity; lia.
    + intros j Hj. apply in_seq in Hj.
      destruct (lookup_lt_is_Some_2 l0 j) as [u Hu]; [lia|].
      destruct (lookup_lt_is_Some_2 l0 i) as [v Hv]; [lia|].
      unfold pair_delta, repulsion_at; simpl. rewrite Hk, Hu, Hv.
      destruct (Nat.eqb_spec k i); [congruence|].
      destruct (Nat.eqb_spec k j) as [->|], (Nat.eqb_spec j j);
        try congruence.
      destruct (Nat.eqb_spec j k); [congruence | reflexivity].
Qed.

Lemma map_lookup_seq {B : Type} (l : list node) (f : node -> B) (d : B) :
  map (fun j => match l !! j with Some u => f u | None => d end)
    (seq 0 (length l)) = map f l.
Proof.
  apply list_eq; intros i.
  rewrite !list_lookup_fmap.
  destruct (l !! i) as [u|] eqn:E.
  - rewrite lookup_seq_lt by (eapply lookup_lt_Some; eassumption).
    simpl; rewrite E; reflexivity.
  - rewrite lookup_seq_ge by (apply lookup_ge_None; assumption).
    reflexivity.
Qed.

Lemma pair_delta_sum (l0 : list node) (k : nat) (o : node) :
  l0 !! k = Some o ->
  vsum (map (fun p => pair_delta l0 p k) (pairs (length l0))) =
  vsum (map (repulsion o) l0).
Proof.
  intros Hk. pose proof (lookup_lt_Some _ _ _ Hk) as Lk.
  unfold pairs. rewrite vsum_flat_map.
  rewrite (vsum_ext _ _ _ (fun i _ => pair_delta_row l0 k i o Hk)).
  rewrite <- (map_lookup_seq l0 (repulsion o) (0, 0)).
  rewrite (vsum_ext _ (repulsion_at l0 k) (seq 0 (length l0)))
    by (intros j _; unfold repulsion_at; rewrite Hk; reflexivity).
  unfold xrange. rewrite Nat.sub_0_r.
  assert (seq 0 (length l0) = seq 0 k ++ k :: seq (S k) (length l0 - S k))
    as Hs.
  { replace (length l0) with (k + S (length l0 - S k))%nat at 1 by lia.
    rewrite seq_app; reflexivity. }
  rewrite Hs, !map_app, !vsum_app; simpl.
  rewrite Nat.eqb_refl.
  f_equal.
  - apply vsum_ext; intros i Hi; apply in_seq in Hi.
    destruct (Nat.eqb_spec i k), (Nat.ltb_spec i k); try lia; reflexivity.
  - rewrite (vsum_ext _ (fun _ => (0, 0)) (seq (S k) (length l0 - S k))).
    + rewrite vsum_zero, vadd_0_r.
      unfold repulsion_at at 2; rewrite Hk, repulsion_self, vadd_0_l.
      replace (k + 1)%nat with (S k) by lia; reflexivity.
    + intros i Hi; apply in_seq in Hi.
      destruct (Nat.eqb_spec i k), (Nat.ltb_spec i k); try lia; reflexivity.
Qed.

Lemma pairs_valid (n : nat) (p : nat * nat) :
  In p (pairs n) -> (fst p < snd p < n)%nat.
Proof.
  unfold pairs, xrange; intros H.
  apply in_flat_map in H as (i & Hi & H).
  apply in_map_iff in H as (j & <- & Hj).
  apply in_seq in Hi, Hj; simpl; lia.
Qed.

Lemma compute_repulsive_force_pairs (l : list node) :
  compute_repulsive_force l =
  for_each (fun p l => repulse_pair (fst p) (snd p) l) (pairs (length l)) l.
Proof.
  unfold compute_repulsive_force, pairs.
  apply (for_each_nested (@length node) repulse_pair).
  intros i j s s'; apply repulse_pair_length.
Qed.

(** The repulsion pass never raises, keeps every attribute but the force,
    and adds to the force of each node the sum of the repulsions from all
    nodes of the list (the node's own term is zero). *)
Lemma compute_repulsive_force_spec (l : list node) :
  exists l',
    compute_repulsive_force l = Ok l' /\
    length l' = length l /\
    forall k o, l !! k = Some o ->
      l' !! k = Some (add_force (vsum (map (repulsion o) l)) o).
Proof.
  rewrite compute_repulsive_force_pairs.
  destruct (repulse_pairs_acc l (pairs (length l))) with
    (F := fun _ : nat => (0, 0)) (l := l) as (l' & E & L & H).
  - intros p Hp; apply pairs_valid in Hp; lia.
  - reflexivity.
  - intros k o Hk; rewrite add_force_0; assumption.
  - exists l'; split; [assumption|]; split; [assumption|].
    intros k o Hk; rewrite (H k o Hk), vadd_0_l, (pair_delta_sum l k o Hk).
    reflexivity.
Qed.

(** ** What the force passes leave alone *)

(** Two lists are equal up to the forces when clearing the forces makes
    them equal; writing a force into a node keeps the list so. *)
Lemma clear_forces_insert (l : list node) (i : nat) (o : node) (f : R * R) :
  l !! i = Some o ->
  clear_forces (<[i := set_force f o]> l) = clear_forces l.
Proof.
  intros H; unfold clear_forces.
  change (map (set_force (0, 0))) with (fmap (M := list) (set_force (0, 0))).
  rewrite list_fmap_insert; apply list_insert_id.
  rewrite list_lookup_fmap, H; reflexivity.
Qed.

Lemma clear_forces_insert2 (l : list node) (i j : nat) (v u : node)
    (f g : R * R) :
  i <> j -> l !! i = Some v -> l !! j = Some u ->
  clear_forces (<[j := set_force g u]> (<[i := set_force f v]> l)) =
  clear_forces l.
Proof.
  intros Hij Hv Hu.
  rewrite clear_forces_insert.
  - apply clear_forces_insert; assumption.
  - rewrite list_lookup_insert_ne by assumption; assumption.
Qed.

Lemma clear_forces_length (l l' : list node) :
  clear_forces l' = clear_forces l -> length l' = length l.
Proof.
  intros H; apply (f_equal (@length node)) in H.
  unfold clear_forces in H; rewrite !length_map in H; assumption.
Qed.

Lemma clear_forces_lookup (l l' : list node) (k : nat) (o : node) :
  clear_forces l' = clear_forces l -> l !! k = Some o ->
  exists f, l' !! k = Some (set_force f o).
Proof.
  intros H Hk.
  assert (clear_forces l' !! k = Some (set_force (0, 0) o)) as H'.
  { rewrite H; unfold clear_forces.
    change (map (set_force (0, 0))) with (fmap (M := list) (set_force (0, 0))).
    rewrite list_lookup_fmap, Hk; reflexivity. }
  unfold clear_forces in H'.
  change (map (set_force (0, 0))) with (fmap (M := list) (set_force (0, 0)))
    in H'.
  rewrite list_lookup_fmap in H'.
  destruct (l' !! k) as [o'|]; [|discriminate].
  exists (force o'); f_equal.
  injection H' as H'.
  destruct o', o; unfold set_force in *; simpl in *; congruence.
Qed.

Lemma clear_forces_name_at (l l' : list node) (k : nat) :
  clear_forces l' = clear_forces l -> name_at l' k = name_at l k.
Proof.
  intros H; unfold name_at.
  destruct (l !! k) as [o|] eqn:E.
  - destruct (clear_forces_lookup l l' k o H E) as [f ->]; reflexivity.
  - apply lookup_ge_None in E.
    rewrite <- (clear_forces_length _ _ H) in E.
    apply lookup_ge_None in E; rewrite E; reflexivity.
Qed.

(** ** Attraction: one axis, one pair *)

Lemma attract_axis_spec (p p' k f f' : R) :
  attract_axis p p' k f f' = (f + hooke (p - p') k, f' + hooke (p' - p) k).
Proof.
  unfold attract_axis, hooke.
  destruct (Req_dec_T (p - p') 0) as [E|NE]; f_equal; try lra.
  - rewrite E; lra.
  - replace (p' - p) with (- (p - p')) by lra; rewrite E; lra.
Qed.

(** One pair of the attraction pass: the oracle is called once, on
    [(v, u)] in this order; with no spring nothing changes, and with a
    spring [v] receives the spring force from [u] and [u] the one from
    [v]. *)
Lemma attract_pair_spec (k : string -> string -> option R) (i j : nat)
    (l : list node) (log : list (string * string)) (v u : node) :
  i <> j -> l !! i = Some v -> l !! j = Some u ->
  attract_pair k i j (l, log) =
  Ok (match k (name v) (name u) with
      | None => l
      | Some c => <[j := add_force (spring u v c) u]>
                    (<[i := add_force (spring v u c) v]> l)
      end, log ++ [(name v, name u)]).
Proof.
  intros Hij Hv Hu; unfold attract_pair.
  rewrite (get_ok _ _ _ Hv), (get_ok _ _ _ Hu); simpl.
  destruct (k (name v) (name u)) as [c|]; [|reflexivity].
  rewrite !attract_axis_spec; reflexivity.
Qed.

Lemma attract_pair_length (k : string -> string -> option R) (i j : nat)
    (s s' : list node * list (string * string)) :
  attract_pair k i j s = Ok s' -> length (fst s') = length (fst s).
Proof.
  destruct s as [l log]; unfold attract_pair, get.
  destruct (l !! i) as [v|]; simpl; [|discriminate].
  destruct (l !! j) as [u|]; simpl; [|discriminate].
  destruct (k (name v) (name u)) as [c|].
  - rewrite !attract_axis_spec; intros E; injection E as <-; simpl.
    rewrite !length_insert; reflexivity.
  - intros E; injection E as <-; reflexivity.
Qed.

Lemma attract_loop_pairs (k : string -> string -> option R)
    (s : list node * list (string * string)) :
  attract_loop k s =
  for_each (fun p s => attract_pair k (fst p) (snd p) s)
    (pairs (length (fst s))) s.
Proof.
  unfold attract_loop, pairs.
  apply (for_each_nested (fun s => length (fst s)) (attract_pair k)).
  intros i j t t'; apply attract_pair_length.
Qed.

(** Processing a list of pairs never raises, changes only forces and logs
    one oracle call per pair, in order. *)
Lemma attract_pairs_acc (k : string -> string -> option R) (l0 : list node)
    (ps : list (nat * nat)) :
  (forall p, In p ps ->
     fst p <> snd p /\ (fst p < length l0)%nat /\ (snd p < length l0)%nat) ->
  forall (l : list node) (log : list (string * string)),
    clear_forces l = clear_forces l0 ->
    exists l',
      for_each (fun p s => attract_pair k (fst p) (snd p) s) ps (l, log) =
      Ok (l', log ++ map (arg_names l0) ps) /\
      clear_forces l' = clear_forces l0.
Proof.
  induction ps as [|[i j] ps IH]; intros Hps l log Hl.
  - exists l; simpl; rewrite app_nil_r; split; [reflexivity | assumption].
  - destruct (Hps (i, j)) as (Hij & Hi & Hj); [left; reflexivity|].
    simpl in Hij, Hi, Hj.
    rewrite <- (clear_forces_length _ _ Hl) in Hi, Hj.
    destruct (lookup_lt_is_Some_2 l i Hi) as [v Hv].
    destruct (lookup_lt_is_Some_2 l j Hj) as [u Hu].
    cbn [for_each map fst snd].
    rewrite (attract_pair_spec k i j l log v u Hij Hv Hu).
    cbn [bind].
    assert (arg_names l0 (i, j) = (name v, name u)) as Hn.
    { unfold arg_names; simpl.
      rewrite <- !(clear_forces_name_at l0 l) by assumption.
      unfold name_at; rewrite Hv, Hu; reflexivity. }
    rewrite Hn.
    replace (log ++ (name v, name u) :: map (arg_names l0) ps)
      with ((log ++ [(name v, name u)]) ++ map (arg_names l0) ps)
      by (rewrite <- app_assoc; reflexivity).
    apply IH.
    + intros p Hp; apply Hps; right; assumption.
    + destruct (k (name v) (name u)) as [c|]; [|assumption].
      unfold add_force; rewrite clear_forces_insert2; assumption.
Qed.

(** The attraction pass: it never raises, changes only forces, and calls
    the oracle once per pair of [pairs], with the earlier node first. *)
Lemma attract_loop_spec (k : string -> string -> option R) (l : list node) :
  exists l',
    attract_loop k (l, []) = Ok (l', map (arg_names l) (pairs (length l))) /\
    clear_forces l' = clear_forces l.
Proof.
  rewrite attract_loop_pairs; simpl.
  destruct (attract_pairs_acc k l (pairs (length l))) with (l := l)
    (log := @nil (string * string)) as (l' & E & H).
  - intros p Hp; apply pairs_valid in Hp; lia.
  - reflexivity.
  - exists l'; split; assumption.
Qed.

(** ** Integration *)

Lemma move_node_ok (ts : R) (o : node) :
  mass o <> 0 -> move_node ts o = Ok (moved ts o).
Proof.
  intros H; unfold move_node; rewrite !fdiv_ok by assumption; reflexivity.
Qed.

Lemma move_node_zero_mass (ts : R) (o : node) :
  mass o = 0 -> move_node ts o = Raise ZeroDivisionError.
Proof. intros H; unfold move_node; rewrite H, fdiv_zero; reflexivity. Qed.

Lemma move_ok (ts : R) (l : list node) :
  Forall (fun o => mass o <> 0) l -> move ts l = Ok (map (moved ts) l).
Proof.
  induction 1 as [|o l Ho Hl IH]; simpl; [reflexivity|].
  rewrite move_node_ok, IH by assumption; reflexivity.
Qed.

Lemma move_zero_mass (ts : R) (o : node) (l : list node) :
  mass o = 0 -> move ts (o :: l) = Raise ZeroDivisionError.
Proof. intros H; simpl; rewrite move_node_zero_mass by assumption; reflexivity. Qed.

(** ** One iteration *)

Lemma clear_forces_idem (l : list node) :
  clear_forces (clear_forces l) = clear_forces l.
Proof.
  unfold clear_forces; rewrite map_map; apply map_ext; reflexivity.
Qed.

Lemma clear_forces_mass (l l' : list node) :
  clear_forces l' = clear_forces l -> map mass l' = map mass l.
Proof.
  intros H; apply (f_equal (map mass)) in H; unfold clear_forces in H.
  rewrite !map_map in H; exact H.
Qed.

Lemma clear_forces_name (l l' : list node) :
  clear_forces l' = clear_forces l -> map name l' = map name l.
Proof.
  intros H; apply (f_equal (map name)) in H; unfold clear_forces in H.
  rewrite !map_map in H; exact H.
Qed.

Lemma Forall_mass (l l' : list node) :
  map mass l' = map mass l ->
  Forall (fun o => mass o <> 0) l -> Forall (fun o => mass o <> 0) l'.
Proof.
  intros H Hl.
  apply Forall_map with (f := mass) (P := fun m => m <> 0).
  rewrite H; apply Forall_map with (f := mass) (P := fun m => m <> 0).
  assumption.
Qed.

Lemma clear_forces_intro (l l' : list node) :
  length l' = length l ->
  (forall k o, l !! k = Some o -> exists f, l' !! k = Some (set_force f o)) ->
  clear_forces l' = clear_forces l.
Proof.
  intros L H; apply list_eq; intros i; unfold clear_forces.
  change (map (set_force (0, 0))) with (fmap (M := list) (set_force (0, 0))).
  rewrite !list_lookup_fmap.
  destruct (l !! i) as [o|] eqn:Eo.
  - destruct (H i o Eo) as [f ->]; reflexivity.
  - apply lookup_ge_None in Eo; rewrite <- L in Eo.
    apply lookup_ge_None in Eo; rewrite Eo; reflexivity.
Qed.

Lemma compute_repulsive_force_frame (l l' : list node) :
  compute_repulsive_force l = Ok l' -> clear_forces l' = clear_forces l.
Proof.
  destruct (compute_repulsive_force_spec l) as (l1 & E & L & H).
  rewrite E; intros [= <-].
  apply clear_forces_intro; [assumption|].
  intros k o Hk; rewrite (H k o Hk); eexists; reflexivity.
Qed.

(** The two force passes in a row: they never raise and change only the
    forces. *)
Lemma forces_spec (k : string -> string -> option R) (l : list node) :
  exists l1 l2,
    compute_repulsive_force (clear_forces l) = Ok l1 /\
    compute_attractive_force k l1 = Ok l2 /\
    clear_forces l2 = clear_forces l.
Proof.
  destruct (compute_repulsive_force_spec (clear_forces l))
    as (l1 & E1 & L1 & H1).
  pose proof (compute_repulsive_force_frame _ _ E1) as C1.
  rewrite clear_forces_idem in C1.
  destruct (attract_loop_spec k l1) as (l2 & E2 & C2).
  exists l1, l2; split; [assumption|]; split.
  - unfold compute_attractive_force; rewrite E2; reflexivity.
  - rewrite C2; assumption.
Qed.

(** One iteration on nodes of non-zero mass never raises: the force passes
    compute a force for each node, leaving everything else as it was, and
    [move] integrates it. *)
Lemma step_spec (k : string -> string -> option R) (ts : R) (l : list node) :
  Forall (fun o => mass o <> 0) l ->
  exists l2,
    clear_forces l2 = clear_forces l /\
    step k ts l = Ok (map (moved ts) l2).
Proof.
  intros Hm; destruct (forces_spec k l) as (l1 & l2 & E1 & E2 & C).
  exists l2; split; [assumption|].
  unfold step; rewrite E1; simpl; rewrite E2; simpl.
  apply move_ok, (Forall_mass l); [|assumption].
  apply clear_forces_mass; assumption.
Qed.

Lemma moved_mass (ts : R) (l : list node) :
  map mass (map (moved ts) l) = map mass l.
Proof. rewrite map_map; apply map_ext; reflexivity. Qed.

Lemma moved_name (ts : R) (l : list node) :
  map name (map (moved ts) l) = map name l.
Proof. rewrite map_map; apply map_ext; reflexivity. Qed.

(** The loop of [move_to_equillibrium] runs to the end on nodes of non-zero
    mass, and keeps names, masses and the number of nodes. *)
Lemma iterate_total (k : string -> string -> option R) (ts : R) (n : nat)
    (l : list node) :
  Forall (fun o => mass o <> 0) l ->
  exists l',
    iterate k ts n l = Ok l' /\
    map name l' = map name l /\ map mass l' = map mass l.
Proof.
  revert l; induction n as [|n IH]; intros l Hm; simpl.
  - exists l; repeat split.
  - destruct (step_spec k ts l Hm) as (l2 & C & E); rewrite E; simpl.
    assert (map mass (map (moved ts) l2) = map mass l) as M
      by (rewrite moved_mass; apply clear_forces_mass; assumption).
    destruct (IH (map (moved ts) l2)) as (l' & E' & N' & M').
    { apply (Forall_mass l); assumption. }
    exists l'; split; [assumption|]; split.
    + rewrite N', moved_name; apply clear_forces_name; assumption.
    + rewrite M'; assumption.
Qed.

(** ** Construction *)

Lemma place_name (r w m q x y : R) (objs : list node) :
  map name (place r w m q x y objs) = map name objs.
Proof.
  revert x y; induction objs as [|o objs IH]; intros x y; simpl;
    [reflexivity|].
  destruct (Rgt_dec (x + r + r) w); simpl; rewrite IH; reflexivity.
Qed.

Lemma place_length (r w m q x y : R) (objs : list node) :
  length (place r w m q x y objs) = length objs.
Proof.
  rewrite <- (length_map name), place_name, length_map; reflexivity.
Qed.

Lemma place_mass (r w m q x y : R) (objs : list node) :
  Forall (fun o => mass o = m) (place r w m q x y objs).
Proof.
  revert x y; induction objs as [|o objs IH]; intros x y; simpl;
    [constructor|].
  destruct (Rgt_dec (x + r + r) w); constructor; auto.
Qed.

Lemma to_float_mul (a b : num) :
  to_float (num_mul a b) = to_float a * to_float b.
Proof. destruct a, b; simpl; try reflexivity; apply mult_IZR. Qed.

(** The sign of [A / N] for a positive int [N] is the sign of [A], also
    under floor division. *)
Lemma num_div_int_sign (a : num) (n : Z) :
  (0 < n)%Z ->
  exists s, num_div_int a n = Ok s /\
    (to_float a < 0 -> to_float s < 0) /\
    (0 <= to_float a -> 0 <= to_float s).
Proof.
  intros Hn; unfold num_div_int.
  destruct (Z.eqb_spec n 0) as [->|_]; [lia|].
  assert (0 < IZR n) as Hr by (apply IZR_lt; assumption).
  destruct a as [z|r]; eexists; (split; [reflexivity|]); simpl; split;
    intros H.
  - apply lt_IZR in H; apply IZR_lt, Z.div_lt_upper_bound; lia.
  - apply le_IZR in H; apply IZR_le, Z.div_pos; lia.
  - apply Rmult_neg_pos; [assumption | apply Rinv_0_lt_compat; assumption].
  - apply Rmult_le_pos; [assumption|].
    left; apply Rinv_0_lt_compat; assumption.
Qed.

(** When the constructor raises and when it returns: it looks at the
    number of objects and at the sign of the area, and at nothing else. *)
Lemma new_SpringBox_cases (objs : list node) (w h q m ts : num)
    (k : string -> string -> option R) :
  (objs = [] ->
   new_SpringBox objs w h q m ts k = Raise ZeroDivisionError) /\
  (objs <> [] -> to_float w * to_float h < 0 ->
   new_SpringBox objs w h q m ts k = Raise ValueError) /\
  (objs <> [] -> 0 <= to_float w * to_float h ->
   exists r, 0 <= r /\
     new_SpringBox objs w h q m ts k =
     Ok (MkSpringBox
           (place r (to_float w) (to_float m + 0) (to_float q + 0) 0 r objs)
           w h q m ts k)).
Proof.
  unfold new_SpringBox, init_positions; simpl.
  split; [intros ->; destruct (num_mul w h); reflexivity|].
  assert (objs <> [] -> (0 < Z.of_nat (length objs))%Z) as Hn
    by (destruct objs; [congruence | simpl; lia]).
  split; intros Ho Ha; rewrite <- to_float_mul in Ha;
    destruct (num_div_int_sign (num_mul w h) _ (Hn Ho)) as (s & -> & Hneg & Hpos);
    simpl; unfold pow_half.
  - destruct (Rlt_dec (to_float s) 0) as [_|N]; [reflexivity|].
    exfalso; apply N, Hneg, Ha.
  - destruct (Rlt_dec (to_float s) 0) as [N|_].
    + pose proof (Hpos Ha); lra.
    + exists (sqrt (to_float s)); split; [apply sqrt_pos | reflexivity].
Qed.

(** ** The final rescale *)

Lemma bbox_fold (l : list node) (minx maxx miny maxy : R) :
  fold_left bbox_step l (minx, maxx, miny, maxy) =
  (lo (map (fun o => fst (pos o)) l) minx,
   hi (map (fun o => fst (pos o)) l) maxx,
   lo (map (fun o => snd (pos o)) l) miny,
   hi (map (fun o => snd (pos o)) l) maxy).
Proof.
  revert minx maxx miny maxy; induction l as [|o l IH]; intros; simpl;
    [reflexivity|].
  rewrite IH; reflexivity.
Qed.

Lemma lo_spec (xs : list R) (m : R) :
  lo xs m <= m /\ (forall x, In x xs -> lo xs m <= x) /\
  (lo xs m = m \/ In (lo xs m) xs).
Proof.
  revert m; induction xs as [|x xs IH]; intros m; unfold lo; simpl.
  - split; [lra|]; split; [intros ? []|left; reflexivity].
  - fold (lo xs (if Rlt_dec x m then x else m)).
    destruct (IH (if Rlt_dec x m then x else m)) as (H1 & H2 & H3).
    destruct (Rlt_dec x m) as [L|L].
    + split; [lra|]; split.
      * intros y [<-|Hy]; [assumption | apply H2; assumption].
      * right; destruct H3 as [->|H3]; [left; reflexivity | right; assumption].
    + split; [assumption|]; split.
      * intros y [<-|Hy]; [lra | apply H2; assumption].
      * destruct H3 as [->|H3]; [left; reflexivity | right; right; assumption].
Qed.

Lemma hi_spec (xs : list R) (m : R) :
  m <= hi xs m /\ (forall x, In x xs -> x <= hi xs m) /\
  (hi xs m = m \/ In (hi xs m) xs).
Proof.
  revert m; induction xs as [|x xs IH]; intros m; unfold hi; simpl.
  - split; [lra|]; split; [intros ? []|left; reflexivity].
  - fold (hi xs (if Rgt_dec x m then x else m)).
    destruct (IH (if Rgt_dec x m then x else m)) as (H1 & H2 & H3).
    destruct (Rgt_dec x m) as [L|L].
    + split; [lra|]; split.
      * intros y [<-|Hy]; [assumption | apply H2; assumption].
      * right; destruct H3 as [->|H3]; [left; reflexivity | right; assumption].
    + split; [assumption|]; split.
      * intros y [<-|Hy]; [lra | apply H2; assumption].
      * destruct H3 as [->|H3]; [left; reflexivity | right; right; assumption].
Qed.

(** Started from an element of the list, the loop computes the least and
    the greatest element. *)
Lemma lo_is_min (xs : list R) (m : R) : In m xs -> is_min (lo xs m) xs.
Proof.
  intros Hm; destruct (lo_spec xs m) as (H1 & H2 & [E|H3]);
    (split; [|assumption]); [rewrite E|]; assumption.
Qed.

Lemma hi_is_max (xs : list R) (m : R) : In m xs -> is_max (hi xs m) xs.
Proof.
  intros Hm; destruct (hi_spec xs m) as (H1 & H2 & [E|H3]);
    (split; [|assumption]); [rewrite E|]; assumption.
Qed.

Lemma scale_bound (d len w : R) :
  0 <= d -> d < len -> 0 < w -> 0 <= d * (w / len) < w.
Proof.
  intros Hd Hl Hw.
  assert (0 < len) as Hlen by lra.
  assert (0 < / len) as Hi by (apply Rinv_0_lt_compat; assumption).
  unfold Rdiv; split.
  - apply Rmult_le_pos; [assumption|]; apply Rmult_le_pos; lra.
  - replace (d * (w * / len)) with (w * (d * / len)) by ring.
    rewrite <- (Rmult_1_r w) at 2.
    apply Rmult_lt_compat_l; [assumption|].
    apply (Rmult_lt_reg_r len); [assumption|].
    rewrite Rmult_assoc, Rinv_l, Rmult_1_r, Rmult_1_l by lra; assumption.
Qed.

(** [scale_to_map] on a non-empty list never raises: it maps every node
    by the translation to the bounding box's minimum and the scaling by
    [w / (box_width + 1)], [h / (box_height + 1)]; on a canvas of positive
    size the result lies in [[0, w) x [0, h)]. *)
Lemma scale_to_map_spec (w h : num) (l : list node) :
  l <> [] ->
  exists minx maxx miny maxy,
    is_min minx (map (fun o => fst (pos o)) l) /\
    is_max maxx (map (fun o => fst (pos o)) l) /\
    is_min miny (map (fun o => snd (pos o)) l) /\
    is_max maxy (map (fun o => snd (pos o)) l) /\
    scale_to_map w h l =
    Ok (map (rescale minx miny (to_float w / (maxx - minx + 1))
               (to_float h / (maxy - miny + 1))) l) /\
    (0 < to_float w -> 0 < to_float h ->
     Forall (on_canvas (to_float w) (to_float h))
       (map (rescale minx miny (to_float w / (maxx - minx + 1))
               (to_float h / (maxy - miny + 1))) l)).
Proof.
  intros Hl; destruct l as [|o0 l0]; [congruence|].
  set (l := o0 :: l0) in *.
  set (xs := map (fun o => fst (pos o)) l).
  set (ys := map (fun o => snd (pos o)) l).
  assert (In (fst (pos o0)) xs) as Hx by (left; reflexivity).
  assert (In (snd (pos o0)) ys) as Hy by (left; reflexivity).
  pose proof (lo_is_min xs _ Hx) as [Ix Lx].
  pose proof (hi_is_max xs _ Hx) as [Jx Ux].
  pose proof (lo_is_min ys _ Hy) as [Iy Ly].
  pose proof (hi_is_max ys _ Hy) as [Jy Uy].
  exists (lo xs (fst (pos o0))), (hi xs (fst (pos o0))),
    (lo ys (snd (pos o0))), (hi ys (snd (pos o0))).
  do 4 (split; [split; assumption|]).
  pose proof (Ux _ Ix) as Bx. pose proof (Uy _ Iy) as By.
  split.
  - unfold scale_to_map; change (get 0 l) with (Ok o0); cbn [bind].
    unfold bbox; rewrite bbox_fold; fold xs ys; cbn beta iota.
    rewrite !fdiv_ok by lra; reflexivity.
  - intros Hw Hh; apply List.Forall_forall; intros o' Ho'.
    apply in_map_iff in Ho' as (o & <- & Ho).
    assert (In (fst (pos o)) xs) as Ox
      by (apply (in_map (fun o => fst (pos o))); assumption).
    assert (In (snd (pos o)) ys) as Oy
      by (apply (in_map (fun o => snd (pos o))); assumption).
    pose proof (Lx _ Ox). pose proof (Ux _ Ox).
    pose proof (Ly _ Oy). pose proof (Uy _ Oy).
    unfold on_canvas, rescale; cbn [pos xpos ypos fst snd].
    split; [apply scale_bound; lra|].
    split; [apply scale_bound; lra|].
    split; reflexivity.
Qed.

(** ** What a successful run keeps *)

Lemma move_inv (ts : R) (l l' : list node) :
  move ts l = Ok l' -> l' = map (moved ts) l.
Proof.
  revert l'; induction l as [|o l IH]; intros l'; simpl.
  - intros [= <-]; reflexivity.
  - unfold move_node, fdiv.
    destruct (Req_dec_T (mass o) 0); simpl; [discriminate|].
    destruct (move ts l) as [r|e]; simpl; [|discriminate].
    intros [= <-]; rewrite (IH r eq_refl); reflexivity.
Qed.

Lemma step_inv (k : string -> string -> option R) (ts : R)
    (l l' : list node) :
  step k ts l = Ok l' ->
  exists l2, clear_forces l2 = clear_forces l /\ l' = map (moved ts) l2.
Proof.
  destruct (forces_spec k l) as (l1 & l2 & E1 & E2 & C).
  unfold step; rewrite E1; simpl; rewrite E2; simpl.
  intros H; exists l2; split; [assumption | apply move_inv; assumption].
Qed.

Lemma step_name (k : string -> string -> option R) (ts : R)
    (l l' : list node) :
  step k ts l = Ok l' -> map name l' = map name l.
Proof.
  intros H; destruct (step_inv k ts l l' H) as (l2 & C & ->).
  rewrite moved_name; apply clear_forces_name; assumption.
Qed.


(** ** Oracles that agree on the (earlier, later) pairs *)

Section Agree.

(** Two oracles that agree on the ordering [names]; the nodes of every
    state below carry these names, in this order. *)
Variable names : list string.
Variables k1 k2 : string -> string -> option R.
Hypothesis Hagree : agree names k1 k2.

Lemma attract_pair_agree (i j : nat)
    (s : list node * list (string * string)) :
  map name (fst s) = names -> (i < j)%nat ->
  attract_pair k1 i j s = attract_pair k2 i j s.
Proof using Hagree.
  destruct s as [l log]; simpl; intros Hn Hij; unfold attract_pair, get.
  destruct (l !! i) as [v|] eqn:Ev; simpl; [|reflexivity].
  destruct (l !! j) as [u|] eqn:Eu; simpl; [|reflexivity].
  rewrite (Hagree i j (name v) (name u) Hij); [reflexivity | |];
    rewrite <- Hn; change (map name l) with (name <$> l);
    rewrite list_lookup_fmap.
  - rewrite Ev; reflexivity.
  - rewrite Eu; reflexivity.
Qed.

Lemma attract_pair_name (k : string -> string -> option R) (i j : nat)
    (s s' : list node * list (string * string)) :
  i <> j -> attract_pair k i j s = Ok s' ->
  map name (fst s') = map name (fst s).
Proof using Type.
  destruct s as [l log]; simpl; intros Hij; unfold get.
  destruct (l !! i) as [v|] eqn:Ev; simpl; [|discriminate].
  destruct (l !! j) as [u|] eqn:Eu; simpl; [|discriminate].
  destruct (k (name v) (name u)) as [c|].
  - destruct (attract_axis _ _ _ _ _) as [fx fx'].
    destruct (attract_axis _ _ _ _ _) as [fy fy'].
    intros [= <-]; simpl.
    apply clear_forces_name, clear_forces_insert2; assumption.
  - intros [= <-]; reflexivity.
Qed.

Lemma compute_attractive_force_agree (l : list node) :
  map name l = names ->
  compute_attractive_force k1 l = compute_attractive_force k2 l.
Proof using Hagree.
  intros Hn; unfold compute_attractive_force.
  rewrite !attract_loop_pairs; simpl.
  rewrite (for_each_ext (fun s => map name (fst s) = names)
             (fun p s => attract_pair k1 (fst p) (snd p) s)
             (fun p s => attract_pair k2 (fst p) (snd p) s));
    [reflexivity|..].
  - intros p s Hp Hs; apply pairs_valid in Hp.
    apply attract_pair_agree; [assumption | lia].
  - intros p s s' Hp Hs E; apply pairs_valid in Hp.
    rewrite (attract_pair_name k1 (fst p) (snd p) s s'); [assumption|lia|].
    assumption.
  - assumption.
Qed.

Lemma step_agree (ts : R) (l : list node) :
  map name l = names -> step k1 ts l = step k2 ts l.
Proof using Hagree.
  intros Hn; unfold step.
  destruct (compute_repulsive_force (clear_forces l)) as [l1|e] eqn:E;
    simpl; [|reflexivity].
  rewrite (compute_attractive_force_agree l1); [reflexivity|].
  apply compute_repulsive_force_frame, clear_forces_name in E.
  rewrite E; unfold clear_forces; rewrite map_map; exact Hn.
Qed.

Lemma iterate_agree (ts : R) (n : nat) (l : list node) :
  map name l = names -> iterate k1 ts n l = iterate k2 ts n l.
Proof using Hagree.
  revert l; induction n as [|n IH]; intros l Hn; simpl; [reflexivity|].
  rewrite <- (step_agree ts l Hn).
  destruct (step k1 ts l) as [l1|e] eqn:E; simpl; [|reflexivity].
  apply IH; rewrite (step_name _ _ _ _ E); assumption.
Qed.

End Agree.

(** The nodes a whole run computes depend on the oracle only through its
    values on the (earlier, later) pairs of the input ordering. *)
Lemma layout_agree (objs : list node) (w h q m ts : num)
    (k1 k2 : string -> string -> option R) (n : nat) :
  agree (map name objs) k1 k2 ->
  nodes_of (layout objs w h q m ts k1 n) =
  nodes_of (layout objs w h q m ts k2 n).
Proof.
  intros Ha; unfold layout, new_SpringBox, init_positions; simpl.
  destruct (num_div_int _ _) as [s|e]; simpl; [|reflexivity].
  destruct (pow_half s) as [r|e]; simpl; [|reflexivity].
  unfold move_to_equillibrium; simpl.
  rewrite (iterate_agree (map name objs) k1 k2 Ha)
    by apply place_name.
  destruct (iterate k2 _ _ _) as [l|e]; simpl; [|reflexivity].
  destruct (scale_to_map w h l); reflexivity.
Qed.

(** ** The oracle of the callers *)

(** An edge recorded by [update_ndict] is returned in both directions. *)
Lemma update_ndict_symmetric (ndict : gmap string (gmap string R))
    (u v : string) (w : R) :
  static_kfn (update_ndict ndict u v w) u v = Some w /\
  static_kfn (update_ndict ndict u v w) v u = Some w.
Proof.
  unfold static_kfn, update_ndict; cbv zeta; split.
  - rewrite lookup_insert_eq, lookup_insert_eq; reflexivity.
  - destruct (decide (u = v)) as [->|Huv].
    + rewrite lookup_insert_eq, lookup_insert_eq; reflexivity.
    + rewrite lookup_insert_ne by congruence.
      rewrite lookup_insert_eq, lookup_insert_eq; reflexivity.
Qed.

(** ** The pairs the loops visit *)



(** ** Coulomb's term *)

Lemma Kc_value : Kc = 8987500000.
Proof. unfold Kc; lra. Qed.

Lemma coulomb_zero (q q' : R) : coulomb 0 q q' = 0.
Proof.
  unfold coulomb; destruct (Req_dec_T 0 0) as [_|N]; [reflexivity|].
  exfalso; apply N; reflexivity.
Qed.

Lemma coulomb_pos (d q q' : R) :
  0 < d -> coulomb d q q' = Kc * q * q' / d ^ 2.
Proof.
  intros H; unfold coulomb, sgn.
  destruct (Req_dec_T d 0); [lra|].
  destruct (Rlt_dec 0 d); [|lra].
  field; assumption.
Qed.

Lemma coulomb_neg (d q q' : R) :
  d < 0 -> coulomb d q q' = - (Kc * q * q' / d ^ 2).
Proof.
  intros H; unfold coulomb, sgn.
  destruct (Req_dec_T d 0); [lra|].
  destruct (Rlt_dec 0 d); [lra|].
  destruct (Rlt_dec d 0); [|lra].
  field; assumption.
Qed.

(** A run on nodes of non-zero mass reaches the rescale and returns. *)
Lemma move_to_equillibrium_total (sb : SpringBox) (n : nat) :
  objects sb <> [] -> Forall (fun o => mass o <> 0) (objects sb) ->
  exists sb', move_to_equillibrium sb n = Ok sb'.
Proof.
  intros Hne Hm; unfold move_to_equillibrium.
  destruct (iterate_total (kfn sb) (to_float (time_step sb)) n _ Hm)
    as (l & -> & Hn & _); simpl.
  assert (l <> []) as Hl.
  { intros ->; destruct (objects sb); [congruence | discriminate]. }
  destruct (scale_to_map_spec (width sb) (height sb) l Hl)
    as (? & ? & ? & ? & _ & _ & _ & _ & -> & _); simpl.
  eexists; reflexivity.
Qed.

Lemma layout_total (objs : list node) (w h q m ts : num)
    (k : string -> string -> option R) (n : nat) :
  objs <> [] -> 0 <= to_float w * to_float h -> to_float m <> 0 ->
  exists sb, layout objs w h q m ts k n = Ok sb.
Proof.
  intros Hne Ha Hm; unfold layout.
  destruct (new_SpringBox_cases objs w h q m ts k) as (_ & _ & H).
  destruct (H Hne Ha) as (r & _ & E); rewrite E; simpl.
  apply move_to_equillibrium_total; simpl.
  - intros E'; apply (f_equal (@length node)) in E'.
    rewrite place_length in E'; destruct objs; [congruence | discriminate].
  - eapply Forall_impl; [apply place_mass|].
    intros o ->; simpl; lra.
Qed.

(** With a node of zero mass at the head of the list, an iteration
    raises in [move]: the force passes have run by then. *)
Lemma step_zero_mass (k : string -> string -> option R) (ts : R)
    (o : node) (l : list node) :
  mass o = 0 -> step k ts (o :: l) = Raise ZeroDivisionError.
Proof.
  intros Hm; destruct (forces_spec k (o :: l)) as (l1 & l2 & E1 & E2 & C).
  unfold step; rewrite E1; simpl; rewrite E2; simpl.
  apply clear_forces_mass in C.
  destruct l2 as [|o2 l2]; [discriminate|].
  injection C as C _; apply move_zero_mass; rewrite C; assumption.
Qed.

(** ** The initial grid *)

(** Every node placed from the offsets [(x, y)] on lies further along the
    row, or in a later row. *)
Lemma place_after (r w m q x y : R) (objs : list node) (p : R * R) :
  0 < r -> In p (map pos (place r w m q x y objs)) ->
  y < snd p \/ (snd p = y /\ x < fst p).
Proof.
  intros Hr; revert x y; induction objs as [|o objs IH]; intros x y;
    simpl; [intros []|].
  destruct (Rgt_dec (x + r + r) w); simpl; (intros [<-|H]; simpl; [lra|]);
    apply IH in H; lra.
Qed.

(** With a positive radius no two nodes are placed at the same point. *)
Lemma place_NoDup (r w m q x y : R) (objs : list node) :
  0 < r -> NoDup (map pos (place r w m q x y objs)).
Proof.
  intros Hr; revert x y; induction objs as [|o objs IH]; intros x y;
    simpl; [constructor|].
  destruct (Rgt_dec (x + r + r) w); simpl; constructor;
    try apply IH; rewrite list_elem_of_In; intros H;
    apply place_after in H; simpl in H; lra.
Qed.

(** The grid: started at the offsets [(0, r)], every node is placed at
    [((c + 1) r, (2 d + 1) r)] for a column [c] and a row [d], so two
    nodes of a row differ in x by a multiple of [r] and two rows differ in
    y by a multiple of [2 r]. *)
Lemma place_grid (r w m q : R) (c d : nat) (objs : list node) (p : R * R) :
  In p (map pos (place r w m q (INR c * r) ((2 * INR d + 1) * r) objs)) ->
  exists c' d' : nat, p = (INR (S c') * r, (2 * INR d' + 1) * r).
Proof.
  revert c d; induction objs as [|o objs IH]; intros c d; simpl;
    [intros []|].
  assert (INR c * r + r = INR (S c) * r) as Ec by (rewrite S_INR; ring).
  destruct (Rgt_dec (INR c * r + r + r) w); simpl;
    (intros [<-|H]; [exists c, d; rewrite Ec; reflexivity|]).
  - apply (IH 0%nat (S d)).
    replace (INR 0 * r) with 0 by (simpl; ring).
    replace ((2 * INR (S d) + 1) * r) with ((2 * INR d + 1) * r + 2 * r)
      by (rewrite S_INR; ring).
    exact H.
  - apply (IH (S c) d); rewrite <- Ec; exact H.
Qed.

(** ** A run reads only the names of the objects *)

(** The passes commute with dropping [xpos] and [ypos], which only
    [scale_to_map] writes.  First, a loop commutes with what its body
    commutes with. *)
Lemma for_each_equivariant {A S : Type} (f : S -> S)
    (body : A -> S -> result S) (l : list A) :
  (forall x s, In x l -> body x (f s) = rmap f (body x s)) ->
  forall s, for_each body l (f s) = rmap f (for_each body l s).
Proof.
  induction l as [|x l IH]; intros Hb s; simpl; [reflexivity|].
  rewrite Hb by (left; reflexivity).
  destruct (body x s) as [s1|e]; simpl; [|reflexivity].
  apply IH; intros y t Hy; apply Hb; right; assumption.
Qed.

Lemma get_forget (i : nat) (l : list node) :
  get i (map forget_xy l) = rmap forget_xy (get i l).
Proof.
  unfold get; change (map forget_xy l) with (forget_xy <$> l).
  rewrite list_lookup_fmap; destruct (l !! i); reflexivity.
Qed.

Lemma insert_forget (i : nat) (o : node) (l : list node) :
  <[i := forget_xy o]> (map forget_xy l) = map forget_xy (<[i := o]> l).
Proof.
  change (map forget_xy) with (fmap (M := list) forget_xy).
  rewrite list_fmap_insert; reflexivity.
Qed.

Lemma repulse_pair_forget (i j : nat) (l : list node) :
  repulse_pair i j (map forget_xy l) =
  rmap (map forget_xy) (repulse_pair i j l).
Proof.
  unfold repulse_pair; rewrite !get_forget.
  destruct (get i l) as [v|e]; simpl; [|reflexivity].
  destruct (get j l) as [u|e]; simpl; [|reflexivity].
  destruct (repulse_axis _ _ _ _ _ _) as [[fx fx']|e]; simpl; [|reflexivity].
  destruct (repulse_axis _ _ _ _ _ _) as [[fy fy']|e]; simpl; [|reflexivity].
  unfold rmap; simpl; rewrite <- !insert_forget; reflexivity.
Qed.

Lemma compute_repulsive_force_forget (l : list node) :
  compute_repulsive_force (map forget_xy l) =
  rmap (map forget_xy) (compute_repulsive_force l).
Proof.
  rewrite !compute_repulsive_force_pairs, length_map.
  apply for_each_equivariant; intros p s _; apply repulse_pair_forget.
Qed.

Lemma attract_pair_forget (k : string -> string -> option R) (i j : nat)
    (s : list node * list (string * string)) :
  attract_pair k i j (map forget_xy (fst s), snd s) =
  rmap (fun s => (map forget_xy (fst s), snd s)) (attract_pair k i j s).
Proof.
  destruct s as [l log]; unfold attract_pair; simpl; rewrite !get_forget.
  destruct (get i l) as [v|e]; simpl; [|reflexivity].
  destruct (get j l) as [u|e]; simpl; [|reflexivity].
  destruct (k (name v) (name u)) as [c|]; [|reflexivity].
  destruct (attract_axis _ _ _ _ _) as [fx fx'].
  destruct (attract_axis _ _ _ _ _) as [fy fy'].
  unfold rmap; simpl; rewrite <- !insert_forget; reflexivity.
Qed.

Lemma compute_attractive_force_forget (k : string -> string -> option R)
    (l : list node) :
  compute_attractive_force k (map forget_xy l) =
  rmap (map forget_xy) (compute_attractive_force k l).
Proof.
  unfold compute_attractive_force; rewrite !attract_loop_pairs; simpl.
  rewrite length_map.
  pose proof (for_each_equivariant
                (fun s => (map forget_xy (fst s), snd s))
                (fun p s => attract_pair k (fst p) (snd p) s)
                (pairs (length l))
                (fun p s _ => attract_pair_forget k (fst p) (snd p) s)
                (l, [])) as E.
  simpl in E; rewrite E.
  destruct (for_each (fun p s => attract_pair k (fst p) (snd p) s)
              (pairs (length l)) (l, [])) as [[l' log]|e]; reflexivity.
Qed.

Lemma move_forget (ts : R) (l : list node) :
  move ts (map forget_xy l) = rmap (map forget_xy) (move ts l).
Proof.
  induction l as [|o l IH]; simpl; [reflexivity|].
  unfold move_node; simpl.
  destruct (fdiv (fst (force o)) (mass o)) as [ax|e]; simpl; [|reflexivity].
  destruct (fdiv (snd (force o)) (mass o)) as [ay|e]; simpl; [|reflexivity].
  rewrite IH; destruct (move ts l); reflexivity.
Qed.

Lemma step_forget (k : string -> string -> option R) (ts : R)
    (l : list node) :
  step k ts (map forget_xy l) = rmap (map forget_xy) (step k ts l).
Proof.
  unfold step.
  replace (clear_forces (map forget_xy l))
    with (map forget_xy (clear_forces l))
    by (unfold clear_forces; rewrite !map_map; reflexivity).
  rewrite compute_repulsive_force_forget.
  destruct (compute_repulsive_force (clear_forces l)) as [l1|e]; simpl;
    [|reflexivity].
  rewrite compute_attractive_force_forget.
  destruct (compute_attractive_force k l1) as [l2|e]; simpl; [|reflexivity].
  apply move_forget.
Qed.

Lemma iterate_forget (k : string -> string -> option R) (ts : R) (n : nat)
    (l : list node) :
  iterate k ts n (map forget_xy l) = rmap (map forget_xy) (iterate k ts n l).
Proof.
  revert l; induction n as [|n IH]; intros l; simpl; [reflexivity|].
  rewrite step_forget.
  destruct (step k ts l) as [l1|e]; simpl; [apply IH | reflexivity].
Qed.

Lemma scale_to_map_forget (w h : num) (l : list node) :
  scale_to_map w h (map forget_xy l) = scale_to_map w h l.
Proof.
  unfold scale_to_map; rewrite get_forget.
  destruct (get 0 l) as [o0|e]; simpl; [|reflexivity].
  unfold bbox; rewrite !bbox_fold, !map_map; simpl.
  destruct (fdiv _ _) as [sx|e]; simpl; [|reflexivity].
  destruct (fdiv _ _) as [sy|e]; simpl; [|reflexivity].
  rewrite map_map; reflexivity.
Qed.

Lemma place_forget (r w m q x y : R) (objs : list node) :
  place r w m q x y (map (fun o => Holder (name o)) objs) =
  map forget_xy (place r w m q x y objs).
Proof.
  revert x y; induction objs as [|o objs IH]; intros x y; simpl;
    [reflexivity|].
  destruct (Rgt_dec (x + r + r) w); simpl; rewrite IH; reflexivity.
Qed.

(** A run reads nothing of the objects but their names. *)
Lemma layout_names_only (objs : list node) (w h q m ts : num)
    (k : string -> string -> option R) (n : nat) :
  nodes_of (layout objs w h q m ts k n) =
  nodes_of (layout (map (fun o => Holder (name o)) objs) w h q m ts k n).
Proof.
  unfold layout, new_SpringBox, init_positions; simpl.
  rewrite length_map.
  destruct (num_div_int _ _) as [s|e]; simpl; [|reflexivity].
  destruct (pow_half s) as [r|e]; simpl; [|reflexivity].
  unfold move_to_equillibrium; simpl.
  rewrite place_forget, iterate_forget.
  destruct (iterate k _ n _) as [l|e]; simpl; [|reflexivity].
  rewrite scale_to_map_forget.
  destruct (scale_to_map w h l); reflexivity.
Qed.

Lemma init_positions_no_overlap (objs : list node) (w h q m ts : num)
    (k : string -> string -> option R) :
  objs <> [] -> positive_radius (num_mul w h) (length objs) ->
  exists sb,
    new_SpringBox objs w h q m ts k = Ok sb /\
    NoDup (map pos (objects sb)).
Proof.
  intros Hne Hr; unfold new_SpringBox, init_positions; simpl.
  assert (0 < Z.of_nat (length objs))%Z as Hn
    by (destruct objs; [congruence | simpl; lia]).
  assert (exists s, num_div_int (num_mul w h) (Z.of_nat (length objs)) = Ok s
                    /\ 0 < to_float s) as (s & -> & Hs).
  { unfold num_div_int.
    destruct (Z.eqb_spec (Z.of_nat (length objs)) 0) as [E|_]; [lia|].
    destruct (num_mul w h) as [a|a]; simpl in Hr; eexists;
      (split; [reflexivity|]); simpl.
    - apply IZR_lt.
      apply (Z.lt_le_trans _ 1); [lia|].
      apply Z.div_le_lower_bound; lia.
    - apply Rdiv_lt_0_compat; [assumption | apply IZR_lt; assumption]. }
  simpl; unfold pow_half.
  destruct (Rlt_dec (to_float s) 0) as [N|_]; [lra|]; simpl.
  eexists; split; [reflexivity|]; simpl.
  apply place_NoDup, sqrt_lt_R0; assumption.
Qed.

(** * The claims of the specification *)

(** Evaluation on concrete inputs: everything is computed except the
    operations on reals, and each comparison of reals is then decided by
    linear arithmetic. *)
Ltac ev :=
  lazy -[Rplus Rmult Rminus Rdiv Ropp Rinv IZR sqrt Rabs pow Kc
         Req_dec_T Rlt_dec Rgt_dec repulse_axis coulomb].

Ltac rdec :=
  repeat match goal with
  | |- context [Req_dec_T ?a ?b] =>
      first [ destruct (Req_dec_T a b) as [?|?]; [|exfalso; lra]
            | destruct (Req_dec_T a b) as [?|?]; [exfalso; lra|] ]
  | |- context [Rlt_dec ?a ?b] =>
      first [ destruct (Rlt_dec a b) as [?|?]; [|exfalso; lra]
            | destruct (Rlt_dec a b) as [?|?]; [exfalso; lra|] ]
  | |- context [Rgt_dec ?a ?b] =>
      first [ destruct (Rgt_dec a b) as [?|?]; [|exfalso; lra]
            | destruct (Rgt_dec a b) as [?|?]; [exfalso; lra|] ]
  end.

(** Equality of evaluated states, up to arithmetic on the reals in them. *)
Ltac req :=
  first [ reflexivity | lra | solve [field; lra] | f_equal; req ].

(** The radius of the examples. *)
Lemma sqrt_4 : sqrt 4 = 2.
Proof. replace 4 with (2 * 2) by lra; apply sqrt_square; lra. Qed.



(** C1 (the code departs from the claim).  One node "A" on a 4 x 1 canvas
    is placed at (2, 2); in the first iteration its force and velocity are
    zero, so the claimed update leaves it at (2, 2), but [move] assigns
    the displacement to the position and the node is at (0, 0).  In
    general [move] sets the acceleration to force / mass, the position to
    velocity * time_step + acceleration / 2 * time_step^2, whatever the
    position was, and adds acceleration * time_step to the velocity. *)
Theorem move_overwrites_position :
  new_SpringBox [Holder "A"] (PyInt 4) (PyInt 1) (PyInt 1) (PyInt 1)
    (PyInt 1) no_edges =
  Ok (MkSpringBox [Node "A" (2, 2) (0, 0) (0, 0) (0, 0) 1 1 None None]
        (PyInt 4) (PyInt 1) (PyInt 1) (PyInt 1) (PyInt 1) no_edges) /\
  step no_edges 1 [Node "A" (2, 2) (0, 0) (0, 0) (0, 0) 1 1 None None] =
  Ok [Node "A" (0, 0) (0, 0) (0, 0) (0, 0) 1 1 None None] /\
  (forall ts o, mass o <> 0 ->
   exists o',
     move_node ts o = Ok o' /\
     acc o' = (fst (force o) / mass o, snd (force o) / mass o) /\
     pos o' = (fst (vel o) * ts + fst (acc o') / 2 * ts ^ 2,
               snd (vel o) * ts + snd (acc o') / 2 * ts ^ 2) /\
     vel o' = (fst (vel o) + fst (acc o') * ts,
               snd (vel o) + snd (acc o') * ts)).
Proof.
  split; [|split].
  - unfold new_SpringBox, init_positions, pow_half; ev.
    rdec; ev. rewrite sqrt_4. rdec.
    replace (0 + 2) with 2 by lra. replace (1 + 0) with 1 by lra.
    reflexivity.
  - unfold step, move_node, fdiv; ev. rdec; ev.
    do 2 f_equal. f_equal; f_equal; lra.
  - intros ts o Hm; exists (moved ts o).
    split; [apply move_node_ok; assumption|].
    repeat split.
Qed.




(** C3 (counterexample).  With width 0, and with width and height both
    negative, the constructor returns an engine and a layout is computed. *)
Lemma degenerate_canvas_accepted :
  (exists sb, new_SpringBox [Holder "A"] (PyInt 0) (PyInt 400) (PyInt 1)
                (PyInt 1) (PyFloat 0.05) no_edges = Ok sb) /\
  (exists sb, layout [Holder "A"] (PyInt 0) (PyInt 400) (PyInt 1)
                (PyInt 1) (PyFloat 0.05) no_edges 1 = Ok sb) /\
  (exists sb, layout [Holder "A"] (PyInt (-150)) (PyInt (-400)) (PyInt 1)
                (PyInt 1) (PyFloat 0.05) no_edges 1 = Ok sb).
Proof.
  split; [|split].
  - destruct (new_SpringBox_cases [Holder "A"] (PyInt 0) (PyInt 400)
                (PyInt 1) (PyInt 1) (PyFloat 0.05) no_edges) as (_ & _ & H).
    destruct H as (r & _ & E); [discriminate | simpl; lra |].
    eexists; exact E.
  - apply layout_total; [discriminate | simpl; lra | simpl; lra].
  - apply layout_total; [discriminate | simpl; lra | simpl; lra].
Qed.

(** C3 (amended).  The constructor raises [ZeroDivisionError] on an empty
    sequence of nodes and [ValueError] on a non-empty one when the area
    width * height is negative; in every other case (a zero width or
    height, or both negative) it returns an engine. *)
Theorem construction_failures (objs : list node) (w h q m ts : num)
    (k : string -> string -> option R) :
  (objs = [] ->
   new_SpringBox objs w h q m ts k = Raise ZeroDivisionError) /\
  (objs <> [] -> to_float w * to_float h < 0 ->
   new_SpringBox objs w h q m ts k = Raise ValueError) /\
  (objs <> [] -> 0 <= to_float w * to_float h ->
   exists sb, new_SpringBox objs w h q m ts k = Ok sb).
Proof.
  destruct (new_SpringBox_cases objs w h q m ts k) as (H1 & H2 & H3).
  split; [assumption|]; split; [assumption|].
  intros Hne Ha; destruct (H3 Hne Ha) as (r & _ & E).
  eexists; exact E.
Qed.

(** No node; one node and a negative area; one node on the canvas of
    [tests.py]. *)
Lemma construction_failures_witness :
  new_SpringBox [] (PyInt 150) (PyInt 400) (PyInt 1) (PyInt 1)
    (PyFloat 0.05) no_edges = Raise ZeroDivisionError /\
  new_SpringBox [Holder "A"] (PyInt (-150)) (PyInt 400) (PyInt 1) (PyInt 1)
    (PyFloat 0.05) no_edges = Raise ValueError /\
  exists sb,
    new_SpringBox [Holder "A"] (PyInt 150) (PyInt 400) (PyInt 1) (PyInt 1)
      (PyFloat 0.05) no_edges = Ok sb.
Proof.
  split; [|split].
  - apply (construction_failures [] (PyInt 150) (PyInt 400) (PyInt 1)
             (PyInt 1) (PyFloat 0.05) no_edges).
    reflexivity.
  - apply (construction_failures [Holder "A"] (PyInt (-150)) (PyInt 400)
             (PyInt 1) (PyInt 1) (PyFloat 0.05) no_edges).
    + discriminate.
    + simpl; lra.
  - apply (construction_failures [Holder "A"] (PyInt 150) (PyInt 400)
             (PyInt 1) (PyInt 1) (PyFloat 0.05) no_edges).
    + discriminate.
    + simpl; lra.
Defined.

(** C4 (counterexample).  With mass 0 the constructor returns an engine,
    and the first iteration raises [ZeroDivisionError]. *)
Lemma zero_mass_accepted :
  exists sb,
    new_SpringBox [Holder "A"] (PyInt 150) (PyInt 400) (PyInt 1) (PyInt 0)
      (PyFloat 0.05) no_edges = Ok sb /\
    move_to_equillibrium sb 1 = Raise ZeroDivisionError.
Proof.
  destruct (new_SpringBox_cases [Holder "A"] (PyInt 150) (PyInt 400)
              (PyInt 1) (PyInt 0) (PyFloat 0.05) no_edges) as (_ & _ & H).
  destruct H as (r & _ & E); [discriminate | simpl; lra |].
  eexists; split; [exact E|].
  unfold move_to_equillibrium; cbn [objects kfn time_step place iterate].
  destruct (Rgt_dec _ _); (rewrite step_zero_mass; [reflexivity | simpl; lra]).
Qed.

(** C4 (amended).  The constructor does not look at the mass: with mass 0
    it returns an engine whenever it would with another mass (the sequence
    of nodes is not empty and the area is not negative), and every run of
    at least one iteration then raises [ZeroDivisionError] at the division
    of the force by the mass in [move]. *)
Theorem zero_mass_raises_in_move (objs : list node) (w h q m ts : num)
    (k : string -> string -> option R) :
  objs <> [] -> 0 <= to_float w * to_float h -> to_float m = 0 ->
  exists sb,
    new_SpringBox objs w h q m ts k = Ok sb /\
    forall n, move_to_equillibrium sb (S n) = Raise ZeroDivisionError.
Proof.
  intros Hne Ha Hm.
  destruct (new_SpringBox_cases objs w h q m ts k) as (_ & _ & H).
  destruct (H Hne Ha) as (r & _ & E).
  eexists; split; [exact E|]; intros n.
  unfold move_to_equillibrium; simpl.
  pose proof (place_mass r (to_float w) (to_float m + 0) (to_float q + 0)
                0 r objs) as P.
  pose proof (place_length r (to_float w) (to_float m + 0) (to_float q + 0)
                0 r objs) as L.
  destruct (place _ _ _ _ _ _ objs) as [|o l].
  - destruct objs; [congruence | discriminate].
  - rewrite step_zero_mass; [reflexivity|].
    inversion P as [|? ? Ho _]; rewrite Ho; lra.
Qed.

(** Two nodes of mass 0.0 on the canvas of [tests.py]. *)
Lemma zero_mass_raises_in_move_witness :
  exists sb,
    new_SpringBox [Holder "A"; Holder "B"] (PyInt 150) (PyInt 400) (PyInt 1)
      (PyFloat 0) (PyFloat 0.05) no_edges = Ok sb /\
    forall n, move_to_equillibrium sb (S n) = Raise ZeroDivisionError.
Proof.
  apply (zero_mass_raises_in_move [Holder "A"; Holder "B"] (PyInt 150)
           (PyInt 400) (PyInt 1) (PyFloat 0) (PyFloat 0.05) no_edges).
  - discriminate.
  - simpl; lra.
  - reflexivity.
Defined.



(** C6.  The repulsion pass never raises and changes only forces: the
    force of every node grows, on each axis, by the sum over all nodes [u]
    of [coulomb d q q'], where [d] is the node's coordinate minus [u]'s
    and [q], [q'] are the two charges.  [coulomb] is zero at [d = 0] (so
    is the node's own term), [Kc q q' / d^2] for [d > 0] and its opposite
    for [d < 0]; it is odd in [d], so the two nodes of a pair receive
    opposite terms; and [Kc] is 8.9875e9. *)
Theorem repulsion_pass (l : list node) :
  Kc = 8987500000 /\
  (forall q q', coulomb 0 q q' = 0) /\
  (forall d q q', 0 < d -> coulomb d q q' = Kc * q * q' / d ^ 2) /\
  (forall d q q', d < 0 -> coulomb d q q' = - (Kc * q * q' / d ^ 2)) /\
  (forall d q q', coulomb (- d) q' q = - coulomb d q q') /\
  exists l',
    compute_repulsive_force l = Ok l' /\
    length l' = length l /\
    forall k o, l !! k = Some o ->
      l' !! k =
      Some (set_force
              (fst (force o) +
               Rsum (map (fun u => coulomb (fst (pos o) - fst (pos u))
                                     (charge o) (charge u)) l),
               snd (force o) +
               Rsum (map (fun u => coulomb (snd (pos o) - snd (pos u))
                                     (charge o) (charge u)) l))
              o).
Proof.
  split; [apply Kc_value|].
  split; [apply coulomb_zero|].
  split; [apply coulomb_pos|].
  split; [apply coulomb_neg|].
  split; [apply coulomb_odd|].
  destruct (compute_repulsive_force_spec l) as (l' & E & L & H).
  exists l'; split; [assumption|]; split; [assumption|].
  intros k o Hk; rewrite (H k o Hk); unfold add_force, vadd.
  rewrite fst_vsum, snd_vsum, !map_map; reflexivity.
Qed.

(** The pass on the two nodes of the example: they differ by 2 in x and
    by nothing in y. *)
Lemma repulsion_pass_witness :
  exists l',
    compute_repulsive_force two_nodes = Ok l' /\
    l' !! 0%nat =
    Some (Node "A" (2, 2) (- Kc / 4, 0) (0, 0) (0, 0) 1 1 None None) /\
    l' !! 1%nat =
    Some (Node "B" (4, 2) (Kc / 4, 0) (0, 0) (0, 0) 1 1 None None).
Proof.
  destruct (repulsion_pass two_nodes) as (_ & _ & _ & _ & _ & l' & E & _ & H).
  exists l'; split; [exact E|].
  rewrite (H 0%nat _ eq_refl), (H 1%nat _ eq_refl).
  ev.
  replace (2 - 2) with 0 by lra; replace (4 - 4) with 0 by lra.
  rewrite !coulomb_zero, (coulomb_neg (2 - 4)), (coulomb_pos (4 - 2)) by lra.
  split; req.
Defined.

(** C7.  Processing one pair of distinct nodes [v], [u] in any state: what
    the repulsion adds to the force of [v] is the opposite of what it adds
    to the force of [u], on each axis; and so for the attraction when the
    oracle returns a spring constant for the pair. *)
Theorem pairwise_forces_opposite (k : string -> string -> option R)
    (l : list node) (log : list (string * string)) (i j : nat)
    (v u : node) :
  i <> j -> l !! i = Some v -> l !! j = Some u ->
  (exists l' v' u',
     repulse_pair i j l = Ok l' /\
     l' !! i = Some v' /\ l' !! j = Some u' /\
     fst (force v') - fst (force v) = - (fst (force u') - fst (force u)) /\
     snd (force v') - snd (force v) = - (snd (force u') - snd (force u))) /\
  (forall c, k (name v) (name u) = Some c ->
   exists l' v' u',
     attract_pair k i j (l, log) = Ok (l', log ++ [(name v, name u)]) /\
     l' !! i = Some v' /\ l' !! j = Some u' /\
     fst (force v') - fst (force v) = - (fst (force u') - fst (force u)) /\
     snd (force v') - snd (force v) = - (snd (force u') - snd (force u))).
Proof.
  intros Hij Hv Hu.
  pose proof (lookup_lt_Some _ _ _ Hv) as Li.
  pose proof (lookup_lt_Some _ _ _ Hu) as Lj.
  split.
  - exists (<[j := add_force (repulsion u v) u]>
              (<[i := add_force (repulsion v u) v]> l)),
      (add_force (repulsion v u) v), (add_force (repulsion u v) u).
    split; [apply repulse_pair_spec; assumption|].
    split; [rewrite list_lookup_insert_ne by congruence;
            apply list_lookup_insert_eq; assumption|].
    split; [apply list_lookup_insert_eq; rewrite length_insert; assumption|].
    unfold repulsion; simpl.
    replace (fst (pos u) - fst (pos v)) with (- (fst (pos v) - fst (pos u)))
      by lra.
    replace (snd (pos u) - snd (pos v)) with (- (snd (pos v) - snd (pos u)))
      by lra.
    rewrite !coulomb_odd; split; lra.
  - intros c Hc.
    exists (<[j := add_force (spring u v c) u]>
              (<[i := add_force (spring v u c) v]> l)),
      (add_force (spring v u c) v), (add_force (spring u v c) u).
    split; [rewrite (attract_pair_spec k i j l log v u Hij Hv Hu), Hc;
            reflexivity|].
    split; [rewrite list_lookup_insert_ne by congruence;
            apply list_lookup_insert_eq; assumption|].
    split; [apply list_lookup_insert_eq; rewrite length_insert; assumption|].
    unfold spring, hooke; simpl; split; lra.
Qed.

(** The pair of the two nodes of the example, joined by an edge of
    weight 1; their forces are zero before. *)
Lemma pairwise_forces_opposite_witness :
  (exists l' v' u',
     repulse_pair 0 1 two_nodes = Ok l' /\
     l' !! 0%nat = Some v' /\ l' !! 1%nat = Some u' /\
     fst (force v') - 0 = - (fst (force u') - 0) /\
     snd (force v') - 0 = - (snd (force u') - 0)) /\
  (exists l' v' u',
     attract_pair edge_AB 0 1 (two_nodes, []) = Ok (l', [("A", "B")]) /\
     l' !! 0%nat = Some v' /\ l' !! 1%nat = Some u' /\
     fst (force v') - 0 = - (fst (force u') - 0) /\
     snd (force v') - 0 = - (snd (force u') - 0)).
Proof.
  destruct (pairwise_forces_opposite edge_AB two_nodes [] 0 1
              (Node "A" (2, 2) (0, 0) (0, 0) (0, 0) 1 1 None None)
              (Node "B" (4, 2) (0, 0) (0, 0) (0, 0) 1 1 None None))
    as [H1 H2].
  - lia.
  - reflexivity.
  - reflexivity.
  - split; [exact H1 | apply (H2 1); reflexivity].
Defined.

(** C8.  The engine is a function of the node ordering, the canvas, the
    constants, the iteration count and the values of the oracle: two runs
    on objects with the same names in the same order, whatever else the
    objects carry (the constructor overwrites every attribute it reads),
    and with two oracles that return the same on every pair of names,
    compute the same nodes or raise the same exception.  No step of the
    engine draws a random number. *)
Theorem layout_deterministic (objs objs' : list node) (w h q m ts : num)
    (k1 k2 : string -> string -> option R) (n : nat) :
  map name objs = map name objs' ->
  (forall a b, k1 a b = k2 a b) ->
  nodes_of (layout objs w h q m ts k1 n) =
  nodes_of (layout objs' w h q m ts k2 n).
Proof.
  intros Hn Hk.
  rewrite (layout_names_only objs), (layout_names_only objs').
  replace (map (fun o => Holder (name o)) objs')
    with (map (fun o => Holder (name o)) objs).
  - apply layout_agree; intros i j a b _ _ _; apply Hk.
  - rewrite <- (map_map name Holder objs), <- (map_map name Holder objs'), Hn.
    reflexivity.
Qed.

(** A second run on the objects of a first one, with the edge recorded
    from the other end: [two_nodes] carries positions, [Holder] does not. *)
Lemma layout_deterministic_witness :
  nodes_of (layout [Holder "A"; Holder "B"] (PyInt 8) (PyInt 1) (PyInt 1)
              (PyInt 1) (PyFloat 0.05) edge_AB 10) =
  nodes_of (layout two_nodes (PyInt 8) (PyInt 1) (PyInt 1)
              (PyInt 1) (PyFloat 0.05) edge_BA 10).
Proof.
  apply (layout_deterministic [Holder "A"; Holder "B"] two_nodes (PyInt 8)
           (PyInt 1) (PyInt 1) (PyInt 1) (PyFloat 0.05) edge_AB edge_BA 10).
  - reflexivity.
  - intros a b; unfold edge_AB, edge_BA.
    replace (update_ndict ∅ "B" "A" 1) with (update_ndict ∅ "A" "B" 1)
      by (vm_compute; reflexivity).
    reflexivity.
Defined.

(** C9 (the code departs from the claim).  Two nodes on a 1 x 1 canvas
    given as ints: the area 1 divided by 2 is 0 under Python 2's floor
    division, the radius is 0.0 and both nodes are placed at (0, 0). *)
Theorem init_positions_overlap :
  new_SpringBox [Holder "A"; Holder "B"] (PyInt 1) (PyInt 1) (PyInt 1)
    (PyInt 1) (PyInt 1) no_edges =
  Ok (MkSpringBox
        [Node "A" (0, 0) (0, 0) (0, 0) (0, 0) 1 1 None None;
         Node "B" (0, 0) (0, 0) (0, 0) (0, 0) 1 1 None None]
        (PyInt 1) (PyInt 1) (PyInt 1) (PyInt 1) (PyInt 1) no_edges).
Proof.
  unfold new_SpringBox, init_positions, pow_half; ev.
  rdec; ev. rewrite sqrt_0. rdec.
  replace (0 + 0 + 0) with 0 by lra.
  replace (0 + 0) with 0 by lra. replace (1 + 0) with 1 by lra.
  reflexivity.
Qed.


